(** * The state trie manager of crypto/statetrie

    A shallow embedding of [crypto/statetrie/trie.go]: the [Trie] manager
    (root, pending deletes, parent link, backing store), its methods
    [MakeTrie], [Add], [Delete], [SetRoot], [RootHash], [child], [merge],
    [Commit], [getNode], [delNode], [addNode], and the nibble packing
    exercised by the package's tests.

    - Bytes and nibbles are integers ([Z]), a byte string or slice is a
      [list Z]; a Go [map[string]node] is a [gmap (list Z) node].
    - Go pointers are addresses in explicit heaps: managers live in
      [tries], stores in [dbs], and what node methods read and write in
      place is the node memory [nodes].
    - A returned [error] is a value; a panic is an outcome of its own.
    - The node implementations ([descendAdd], [descendHash], ...) are
      not in the files at hand: the manager is written over the
      interface [NodeOps], and every theorem holds for all
      implementations of it.
    - The statistics counters, the debug prints, [Close] and the two
      diagnostic dumps ([countNodes], [DotGraph]) are left out.
    - The backing stores and the backing node of [backing.go], which
      belong to another revision of the package, are in [Backing]. *)

From Stdlib Require Import ZArith Lia.
From stdpp Require Import gmap list.

Local Open Scope Z_scope.

(** ** Nibble paths *)

(** Modelled from the spec: the bodies of [pack] and [unpack] are not part
    of the sources at hand (only [TestNibbleUtilities] and [TestNibbles]
    call them).  Section 4.1: [pack] returns one byte per two nibbles, the
    even-indexed nibble in the high half and the odd-indexed one in the low
    half, the flag tells an odd length, and a value above 15 is refused;
    [unpack] is the inverse and, when the flag is set, drops the trailing
    zero nibble (an input with no trailing zero nibble to drop is
    malformed). *)

Definition isNibble (x : Z) : bool := (0 <=? x) && (x <=? 15).

Fixpoint pack (n : list Z) : option (list Z * bool) :=
  match n with
  | [] => Some ([], false)
  | [hi] => if isNibble hi then Some ([Z.shiftl hi 4], true) else None
  | hi :: lo :: rest =>
      if isNibble hi && isNibble lo then
        match pack rest with
        | Some (bs, half) => Some (Z.lor (Z.shiftl hi 4) lo :: bs, half)
        | None => None
        end
      else None
  end.

Fixpoint unpack (bs : list Z) (half : bool) : option (list Z) :=
  match bs with
  | [] => if half then None else Some []
  | b :: rest =>
      match rest with
      | [] =>
          if half then
            if Z.land b 15 =? 0 then Some [Z.shiftr b 4] else None
          else Some [Z.shiftr b 4; Z.land b 15]
      | _ :: _ =>
          match unpack rest half with
          | Some ns => Some (Z.shiftr b 4 :: Z.land b 15 :: ns)
          | None => None
          end
      end
  end.

(** ** Values, errors and outcomes *)

(** [crypto.Digest] is a 32-byte array; [crypto.Digest{}] is its zero
    value. *)
Definition zeroDigest : list Z := replicate 32 0.

Definition MaxKeyLength : Z := 65535.

(** The error values that can reach a caller of the package.  The two
    [errors.New] values of [Add] and [Delete] are values of their own:
    no error made elsewhere is equal to them.  Errors made by node code
    and by the store carry a code. *)
Inductive error : Type :=
| ErrEmptyKey                (* errors.New("empty key not allowed") *)
| ErrKeyTooLong              (* errors.New("key too long") *)
| ErrNode (code : nat)       (* made by the node implementations *)
| ErrNotFound                (* pebble.ErrNotFound *)
| ErrPebble (code : nat).    (* any other failure of the store *)

Inductive panicValue : Type :=
| PanicError (e : error)     (* panic(err) *)
| PanicNilDeref.             (* use of a nil pointer *)

(** How a call ends: it returns, it panics, or the bound on the depth of
    the parent chain allowed to [Commit] is used up. *)
Inductive outcome (A : Type) : Type :=
| Done (a : A)
| Panicked (p : panicValue)
| OutOfFuel.
Arguments Done {A} a.
Arguments Panicked {A} p.
Arguments OutOfFuel {A}.

(** ** The backing store (pebble) as the manager uses it *)

Inductive batchOp : Type :=
| BatchSet (k v : list Z)
| BatchDelete (k : list Z).

(** Which calls of the store fail, and with which code. *)
Record Faults : Type := mkFaults {
  failGet : list Z -> option nat;
  failDelete : list Z -> option nat;
  failApply : option nat;
  failClose : option nat
}.

Record DB : Type := mkDB {
  kv : gmap (list Z) (list Z);   (* the persisted key/value pairs *)
  openBatches : gset nat;        (* batches handed out and not yet closed *)
  nextBatch : nat;
  openReaders : nat;             (* read handles handed out by Get, not yet released *)
  faults : Faults
}.

Record Batch : Type := mkBatch {
  batchId : nat;
  batchOps : list batchOp
}.

Definition NewBatch (d : DB) : Batch * DB :=
  (mkBatch (nextBatch d) [],
   mkDB (kv d) ({[nextBatch d]} ∪ openBatches d) (S (nextBatch d))
        (openReaders d) (faults d)).

Definition batchDelete (d : DB) (b : Batch) (k : list Z) : Batch * option error :=
  match failDelete (faults d) k with
  | Some c => (b, Some (ErrPebble c))
  | None => (mkBatch (batchId b) (batchOps b ++ [BatchDelete k]), None)
  end.

Definition applyOp (m : gmap (list Z) (list Z)) (op : batchOp) : gmap (list Z) (list Z) :=
  match op with
  | BatchSet k v => <[k := v]> m
  | BatchDelete k => delete k m
  end.

Definition Apply (d : DB) (b : Batch) : DB * option error :=
  match failApply (faults d) with
  | Some c => (d, Some (ErrPebble c))
  | None =>
      (mkDB (foldl applyOp (kv d) (batchOps b)) (openBatches d) (nextBatch d)
            (openReaders d) (faults d), None)
  end.

Definition batchClose (d : DB) (b : Batch) : DB * option error :=
  match failClose (faults d) with
  | Some c => (d, Some (ErrPebble c))
  | None =>
      (mkDB (kv d) (openBatches d ∖ {[batchId b]}) (nextBatch d)
            (openReaders d) (faults d), None)
  end.

Definition Get (d : DB) (k : list Z) : (list Z * option error) * DB :=
  match failGet (faults d) k with
  | Some c => (([], Some (ErrPebble c)), d)
  | None =>
      match kv d !! k with
      | Some v =>
          ((v, None),
           mkDB (kv d) (openBatches d) (nextBatch d) (S (openReaders d)) (faults d))
      | None => (([], Some ErrNotFound), d)
      end
  end.

(** [closer.Close()] of the handle returned by [Get]. *)
Definition closeReader (d : DB) : DB :=
  mkDB (kv d) (openBatches d) (nextBatch d) (Nat.pred (openReaders d)) (faults d).

(** ** The node interface *)

(** What a descent of node code may do besides computing: read and
    update node memory, panic, and call back the three methods the
    manager offers to nodes ([getNode], [addNode], [delNode]).  The
    manager's other fields are out of its reach. *)
Inductive Descent (node NodeMem R : Type) : Type :=
| Ret (r : R)
| Abort (p : panicValue)
| OnMem (upd : NodeMem -> NodeMem) (k : NodeMem -> Descent node NodeMem R)
| CallGetNode (dbn : node) (k : option node -> option error -> Descent node NodeMem R)
| CallAddNode (n : node) (k : Descent node NodeMem R)
| CallDelNode (n : node) (k : Descent node NodeMem R).
Arguments Ret {node NodeMem R} r.
Arguments Abort {node NodeMem R} p.
Arguments OnMem {node NodeMem R} upd k.
Arguments CallGetNode {node NodeMem R} dbn k.
Arguments CallAddNode {node NodeMem R} n k.
Arguments CallDelNode {node NodeMem R} n k.

(** The Go interface [node] and the constructors and functions of the
    package that [trie.go] calls and that live in other files.  A [node]
    is a non-nil interface value, [NodeMem] the memory its methods read
    and write in place; [option node] is a possibly nil interface value
    and [option (list Z)] a possibly nil pointer or slice. *)
Class NodeOps : Type := {
  node : Type;
  NodeMem : Type;
  Hash : list Z -> list Z;                                   (* crypto.Hash *)
  getHash : node -> NodeMem -> option (list Z);
  getKey : node -> NodeMem -> list Z;
  getDBKey : node -> NodeMem -> option (list Z);
  descendHash : node -> NodeMem -> option nat * NodeMem;
  descendHashWithCommit :
    node -> list batchOp -> NodeMem -> (list batchOp * option nat) * NodeMem;
  makeLeafNode : list Z -> list Z -> list Z -> NodeMem -> node * NodeMem;
  makeDBNode : list Z -> list Z -> NodeMem -> node * NodeMem;
  deserializeNode : list Z -> list Z -> NodeMem -> (option node * option nat) * NodeMem;
  descendAdd :
    node -> list Z -> list Z -> list Z ->
    Descent node NodeMem (option node * option nat);
  descendDelete :
    node -> list Z -> list Z ->
    Descent node NodeMem (option node * bool * option nat)
}.

(** ** The manager *)

Section Manager.
Context {NO : NodeOps}.

Record Trie : Type := mkTrie {
  db : option nat;               (* *pebble.DB *)
  parent : option nat;           (* *Trie *)
  root : option node;
  dels : gmap (list Z) node
}.

(** Everything the package's pointers point into. *)
Record World : Type := mkWorld {
  tries : gmap nat Trie;
  nodes : NodeMem;
  dbs : gmap nat DB
}.

Definition M (A : Type) : Type := World -> outcome A * World.

Definition ret {A} (a : A) : M A := fun w => (Done a, w).

Definition bind {A B} (c : M A) (k : A -> M B) : M B :=
  fun w =>
    match c w with
    | (Done a, w') => k a w'
    | (Panicked p, w') => (Panicked p, w')
    | (OutOfFuel, w') => (OutOfFuel, w')
    end.

Definition panic {A} (p : panicValue) : M A := fun w => (Panicked p, w).

Definition getTrie (mt : nat) : M Trie :=
  fun w =>
    match tries w !! mt with
    | Some t => (Done t, w)
    | None => (Panicked PanicNilDeref, w)
    end.

Definition putTrie (mt : nat) (t : Trie) : M unit :=
  fun w => (Done tt, mkWorld (<[mt := t]> (tries w)) (nodes w) (dbs w)).

Definition readNodes : M NodeMem := fun w => (Done (nodes w), w).

Definition withNodes {A} (f : NodeMem -> A * NodeMem) : M A :=
  fun w =>
    let '(a, m) := f (nodes w) in
    (Done a, mkWorld (tries w) m (dbs w)).

Definition getDB (d : option nat) : M DB :=
  fun w =>
    match d with
    | Some l =>
        match dbs w !! l with
        | Some x => (Done x, w)
        | None => (Panicked PanicNilDeref, w)
        end
    | None => (Panicked PanicNilDeref, w)
    end.

Definition putDB (d : option nat) (x : DB) : M unit :=
  fun w =>
    match d with
    | Some l => (Done tt, mkWorld (tries w) (nodes w) (<[l := x]> (dbs w)))
    | None => (Done tt, w)
    end.

End Manager.

Notation "x <- c1 ;; c2" := (bind c1 (fun x => c2))
  (at level 100, c1 at next level, right associativity).
Notation "c1 ;;; c2" := (bind c1 (fun _ => c2))
  (at level 100, right associativity).

Section Methods.
Context {NO : NodeOps}.

Definition setRoot (mt : nat) (r : option node) : M unit :=
  t <- getTrie mt ;;
  putTrie mt (mkTrie (db t) (parent t) r (dels t)).

Definition setDels (mt : nat) (ds : gmap (list Z) node) : M unit :=
  t <- getTrie mt ;;
  putTrie mt (mkTrie (db t) (parent t) (root t) ds).

(** [MakeTrie]: a new manager on the given store, no root, no parent, an
    empty [dels]. *)
Definition MakeTrie (d : option nat) : M (nat * option error) :=
  fun w =>
    let mt := fresh (dom (tries w)) in
    (Done (mt, None),
     mkWorld (<[mt := mkTrie d None None ∅]> (tries w)) (nodes w) (dbs w)).

(** [getNode].  The deferred [closer.Close()] runs when the function
    returns and when it panics after the handle was obtained. *)
Definition getNode (mt : nat) (dbn : node) : M (option node * option error) :=
  m <- readNodes ;;
  match getDBKey dbn m with
  | Some dbKey =>
      t <- getTrie mt ;;
      match dels t !! dbKey with
      | Some _ => ret (None, None)
      | None =>
          d <- getDB (db t) ;;
          let '((dbbytes, err), d1) := Get d dbKey in
          putDB (db t) d1 ;;;
          match err with
          | Some e => panic (PanicError e)
          | None =>
              r <- withNodes (deserializeNode dbbytes (getKey dbn m)) ;;
              putDB (db t) (closeReader d1) ;;;
              match r.2 with
              | Some c => panic (PanicError (ErrNode c))
              | None => ret (r.1, None)
              end
          end
      end
  | None => ret (None, None)
  end.

Definition delNode (mt : nat) (n : node) : M unit :=
  m <- readNodes ;;
  match getDBKey n m with
  | Some dbKey =>
      t <- getTrie mt ;;
      setDels mt (<[dbKey := n]> (dels t))
  | None => ret tt
  end.

Definition addNode (mt : nat) (n : node) : M unit :=
  m <- readNodes ;;
  t <- getTrie mt ;;
  setDels mt (delete (getKey n m) (dels t)).

(** Running a descent for the manager [mt]: the call-backs are the
    manager's own methods. *)
Fixpoint run {R} (mt : nat) (p : Descent node NodeMem R) : M R :=
  match p with
  | Ret r => ret r
  | Abort pv => panic pv
  | OnMem upd k =>
      m <- withNodes (fun m => (upd m, upd m)) ;;
      run mt (k m)
  | CallGetNode dbn k =>
      r <- getNode mt dbn ;;
      run mt (k r.1 r.2)
  | CallAddNode n k => addNode mt n ;;; run mt k
  | CallDelNode n k => delNode mt n ;;; run mt k
  end.

Definition Add (mt : nat) (key value : list Z) : M (option error) :=
  if Z.of_nat (length key) =? 0 then ret (Some ErrEmptyKey)
  else if Z.of_nat (length key) >? MaxKeyLength then ret (Some ErrKeyTooLong)
  else
    t <- getTrie mt ;;
    match root t with
    | None =>
        n <- withNodes (makeLeafNode key (Hash value) []) ;;
        setRoot mt (Some n) ;;;
        addNode mt n ;;;
        ret None
    | Some r =>
        res <- run mt (descendAdd r [] key (Hash value)) ;;
        match res.2 with
        | Some c => ret (Some (ErrNode c))
        | None => setRoot mt res.1 ;;; ret None
        end
    end.

Definition Delete (mt : nat) (key : list Z) : M (bool * option error) :=
  if Z.of_nat (length key) =? 0 then ret (false, Some ErrEmptyKey)
  else if Z.of_nat (length key) >? MaxKeyLength then ret (false, Some ErrKeyTooLong)
  else
    t <- getTrie mt ;;
    match root t with
    | None => ret (false, None)
    | Some r =>
        res <- run mt (descendDelete r [] key) ;;
        let '(replacement, found, err) := res in
        match err, found with
        | None, true => setRoot mt replacement ;;; ret (found, None)
        | None, false => ret (found, None)
        | Some c, _ => ret (found, Some (ErrNode c))
        end
    end.

Definition SetRoot (mt : nat) (digest : list Z) : M unit :=
  n <- withNodes (makeDBNode digest []) ;;
  setRoot mt (Some n).

Definition RootHash (mt : nat) : M (list Z * option error) :=
  t <- getTrie mt ;;
  match root t with
  | None => ret (zeroDigest, None)
  | Some r =>
      m <- readNodes ;;
      match getHash r m with
      | Some h => ret (h, None)
      | None =>
          err <- withNodes (descendHash r) ;;
          match err with
          | Some c => ret (zeroDigest, Some (ErrNode c))
          | None =>
              m' <- readNodes ;;
              match getHash r m' with
              | Some h => ret (h, None)
              | None => panic PanicNilDeref
              end
          end
      end
  end.

(** [child]: the new manager has no store of its own. *)
Definition child (mt : nat) : M nat :=
  t <- getTrie mt ;;
  fun w =>
    let ch := fresh (dom (tries w)) in
    (Done ch,
     mkWorld (<[ch := mkTrie None (Some mt) (root t) ∅]> (tries w)) (nodes w) (dbs w)).

(** [merge]: the loop [for k, v := range mt.dels] writes each entry into
    the parent's map. *)
Definition merge (mt : nat) : M (option error) :=
  t <- getTrie mt ;;
  match parent t with
  | None => ret None
  | Some p =>
      setRoot p (root t) ;;;
      pt <- getTrie p ;;
      setDels p (map_fold (fun k v acc => <[k := v]> acc) (dels pt) (dels t)) ;;;
      ret None
  end.

(** The loop [for k := range mt.dels] of [Commit]: it stops at the first
    failing [b.Delete].  Go fixes no order for the walk; the model takes
    the keys in the order of [map_to_list]. *)
Fixpoint deleteAll (d : DB) (b : Batch) (ks : list (list Z)) : Batch * option error :=
  match ks with
  | [] => (b, None)
  | k :: ks' =>
      match batchDelete d b k with
      | (b', Some e) => (b', Some e)
      | (b', None) => deleteAll d b' ks'
      end
  end.

(** The body of [Commit] for a manager without parent.  An error of
    [descendHashWithCommit] (its own or one of the batch it writes to)
    is returned as it comes. *)
Definition commitHere (mt : nat) (t : Trie) : M (option error) :=
  d <- getDB (db t) ;;
  let '(b, d1) := NewBatch d in
  putDB (db t) d1 ;;;
  hres <- match root t with
          | Some r =>
              withNodes (fun m =>
                let '((ops, err), m') := descendHashWithCommit r (batchOps b) m in
                ((mkBatch (batchId b) ops, err), m'))
          | None => ret (b, None)
          end ;;
  match hres.2 with
  | Some c => ret (Some (ErrNode c))
  | None =>
      let '(b2, derr) := deleteAll d1 hres.1 (map fst (map_to_list (dels t))) in
      match derr with
      | Some e => ret (Some e)
      | None =>
          let '(d2, aerr) := Apply d1 b2 in
          putDB (db t) d2 ;;;
          match aerr with
          | Some e => ret (Some e)
          | None =>
              let '(d3, cerr) := batchClose d2 b2 in
              putDB (db t) d3 ;;;
              match cerr with
              | Some e => ret (Some e)
              | None => setDels mt ∅ ;;; ret None
              end
          end
      end
  end.

(** [Commit].  The recursion follows the parent links; [fuel] bounds the
    number of managers visited. *)
Fixpoint Commit (fuel : nat) (mt : nat) : M (option error) :=
  match fuel with
  | O => fun w => (OutOfFuel, w)
  | S fuel' =>
      t <- getTrie mt ;;
      match parent t with
      | Some p => merge mt ;;; Commit fuel' p
      | None => commitHere mt t
      end
  end.

End Methods.

(** ** Parent chains *)

(** [chain ts mt top d]: following the parent links from [mt] reaches
    the manager [top], which has no parent, after [d] steps. *)
Inductive chain {NO : NodeOps} (ts : gmap nat Trie) : nat -> nat -> nat -> Prop :=
| chain_top mt t :
    ts !! mt = Some t -> parent t = None -> chain ts mt mt O
| chain_step mt t p top d :
    ts !! mt = Some t -> parent t = Some p -> chain ts p top d ->
    chain ts mt top (S d).

(** The keys [Commit] walks over in its delete loop. *)
Definition pendingKeys {NO : NodeOps} (t : Trie) : list (list Z) :=
  map fst (map_to_list (dels t)).

(** Two heaps of managers with the same parent links. *)
Definition same_links {NO : NodeOps} (ts ts' : gmap nat Trie) : Prop :=
  forall x, parent <$> ts' !! x = parent <$> ts !! x.

(** Every manager has the root field it had. *)
Definition roots_kept {NO : NodeOps} (w w' : World) : Prop :=
  forall x, root <$> tries w' !! x = root <$> tries w !! x.


(** ** What the hasher is expected to do *)

(** Modelled from the spec: the bodies of [descendHash] and
    [descendHashWithCommit] are in files that are not at hand.
    Section 4.4: [descendHashWithCommit] is the same post-order walk as
    [descendHash] and in addition writes each node it hashes to the
    batch; section 3, invariant 5 and section 2: a cached digest is the
    digest of the node and is reused, not recomputed. *)
Record HasherLaws {NO : NodeOps} : Prop := mkHasherLaws {
  commit_keeps_cache :
    forall r ops m ops' m' h,
      getHash r m = Some h ->
      descendHashWithCommit r ops m = ((ops', None), m') ->
      getHash r m' = Some h;
  commit_same_digest :
    forall r ops m ops' m1 m2,
      getHash r m = None ->
      descendHash r m = (None, m1) ->
      descendHashWithCommit r ops m = ((ops', None), m2) ->
      getHash r m2 = getHash r m1
}.

(** ** A small implementation of the node interface

    Enough to run the manager on concrete inputs: a node is a cell of a
    growing array holding its key path, its database key once it has
    one, its cached digest and its serialization.  A descent replaces
    the node it starts from by a fresh leaf, and refuses a key holding a
    value that is not a nibble. *)
Module Sample.

Record Cell : Type := mkCell {
  cellKey : list Z;
  cellDBKey : option (list Z);
  cellHash : option (list Z);
  cellBytes : list Z
}.

Definition digestOf (bs : list Z) : list Z := take 32 (bs ++ replicate 32 0).

Definition hashCell (c : Cell) : Cell :=
  mkCell (cellKey c) (Some (cellKey c)) (Some (digestOf (cellBytes c))) (cellBytes c).

Definition sampleDescendHash (n : nat) (m : list Cell) : option nat * list Cell :=
  match m !! n with
  | Some c =>
      match cellHash c with
      | Some _ => (None, m)
      | None => (None, <[n := hashCell c]> m)
      end
  | None => (Some 1%nat, m)
  end.

Definition sampleDescendHashWithCommit (n : nat) (ops : list batchOp) (m : list Cell)
  : (list batchOp * option nat) * list Cell :=
  match m !! n with
  | Some c =>
      match cellHash c with
      | Some _ => ((ops, None), m)
      | None =>
          ((ops ++ [BatchSet (cellKey c) (cellBytes c)], None), <[n := hashCell c]> m)
      end
  | None => ((ops, Some 1%nat), m)
  end.

Definition newLeaf (keyEnd valueHash key : list Z) (m : list Cell) : nat * list Cell :=
  (length m, m ++ [mkCell key None None (4 :: valueHash ++ keyEnd)]).

Definition newDBNode (h key : list Z) (m : list Cell) : nat * list Cell :=
  (length m, m ++ [mkCell key (Some key) (Some h) []]).

Definition sampleDeserialize (bs key : list Z) (m : list Cell)
  : (option nat * option nat) * list Cell :=
  match bs with
  | [] => ((None, Some 2%nat), m)
  | _ :: _ => ((Some (length m), None), m ++ [mkCell key (Some key) None bs])
  end.

Definition sampleDescendAdd (n : nat) (pathKey remainingKey valueHash : list Z)
  : Descent nat (list Cell) (option nat * option nat) :=
  if forallb isNibble remainingKey then
    CallDelNode n
      (OnMem (fun m => (newLeaf remainingKey valueHash pathKey m).2)
         (fun m => CallAddNode (Nat.pred (length m))
                     (Ret (Some (Nat.pred (length m)), None))))
  else Ret (None, Some 3%nat).

Definition sampleDescendDelete (n : nat) (pathKey remainingKey : list Z)
  : Descent nat (list Cell) (option nat * bool * option nat) :=
  if forallb isNibble remainingKey then
    CallDelNode n (Ret (None, true, None))
  else Ret (None, false, Some 3%nat).

#[export] Instance ops : NodeOps := {|
  node := nat;
  NodeMem := list Cell;
  Hash := digestOf;
  getHash := fun n m => c ← m !! n; cellHash c;
  getKey := fun n m => from_option cellKey [] (m !! n);
  getDBKey := fun n m => c ← m !! n; cellDBKey c;
  descendHash := sampleDescendHash;
  descendHashWithCommit := sampleDescendHashWithCommit;
  makeLeafNode := newLeaf;
  makeDBNode := newDBNode;
  deserializeNode := sampleDeserialize;
  descendAdd := sampleDescendAdd;
  descendDelete := sampleDescendDelete
|}.

Definition noFaults : Faults := mkFaults (fun _ => None) (fun _ => None) None None.

Definition emptyDB (f : Faults) : DB := mkDB ∅ ∅ O O f.

(** One manager at address 0 on the store at address 0, whose root is
    the placeholder in cell 0 (key path [], digest of 32 sevens) and
    which has scheduled the database key [1;3] for deletion; the store
    holds that key. *)
Definition sevens : list Z := replicate 32 7.

Definition world0 (f : Faults) : World :=
  mkWorld
    {[ O := mkTrie (Some O) None (Some O) {[ [1; 3] := 1%nat ]} ]}
    [mkCell [] (Some []) (Some sevens) []; mkCell [1; 3] (Some [1; 3]) None [4; 9]]
    {[ O := mkDB {[ [1; 3] := [4; 9] ]} ∅ O O f ]}.

(** The same manager before any root was set. *)
Definition world1 (f : Faults) : World :=
  mkWorld
    {[ O := mkTrie (Some O) None None {[ [1; 3] := 1%nat ]} ]}
    [mkCell [] (Some []) (Some sevens) []; mkCell [1; 3] (Some [1; 3]) None [4; 9]]
    {[ O := mkDB {[ [1; 3] := [4; 9] ]} ∅ O O f ]}.

(** Stores that fail: [Apply] with code 9, [Get] with code 5. *)
Definition applyFails : Faults := mkFaults (fun _ => None) (fun _ => None) (Some 9%nat) None.

Definition getFails : Faults := mkFaults (fun _ => Some 5%nat) (fun _ => None) None None.

(** The manager of [world0] with a nested manager at address 1, whose
    root is the leaf in cell 1 and which has scheduled the key [2]. *)
Definition world2 : World :=
  mkWorld
    {[ O := mkTrie (Some O) None (Some O) {[ [1; 3] := 1%nat ]};
       1%nat := mkTrie None (Some O) (Some 1%nat) {[ [2] := O ]} ]}
    [mkCell [] (Some []) (Some sevens) []; mkCell [1; 3] (Some [1; 3]) None [4; 9]]
    {[ O := mkDB {[ [1; 3] := [4; 9]; [2] := [4; 8] ]} ∅ O O noFaults ]}.

(** A manager with nothing pending and two placeholders for the same
    key path and database key [], one with the digest of 32 sevens and
    one with the digest of 32 nines; the store holds that key. *)
Definition nines : list Z := replicate 32 9.

Definition world3 (f : Faults) : World :=
  mkWorld
    {[ O := mkTrie (Some O) None (Some O) ∅ ]}
    [mkCell [] (Some []) (Some sevens) []; mkCell [] (Some []) (Some nines) []]
    {[ O := mkDB {[ [] := [4; 7] ]} ∅ O O f ]}.

End Sample.

(** ** A node implementation whose descents fail late

    As [Sample], except for the descents: on the way down they schedule
    the node they start from for deletion and clear its cached digest,
    as a structural change does, and only then refuse a key holding a
    value that is not a nibble. *)
Module SampleLate.

Definition clearHash (n : nat) (m : list Sample.Cell) : list Sample.Cell :=
  match m !! n with
  | Some c =>
      <[n := Sample.mkCell (Sample.cellKey c) (Sample.cellDBKey c) None
                           (Sample.cellBytes c)]> m
  | None => m
  end.

Definition lateDescendAdd (n : nat) (pathKey remainingKey valueHash : list Z)
  : Descent nat (list Sample.Cell) (option nat * option nat) :=
  CallDelNode n
    (OnMem (clearHash n)
       (fun _ =>
          if forallb isNibble remainingKey then
            OnMem (fun m => (Sample.newLeaf remainingKey valueHash pathKey m).2)
              (fun m => CallAddNode (Nat.pred (length m))
                          (Ret (Some (Nat.pred (length m)), None)))
          else Ret (None, Some 3%nat))).

Definition lateDescendDelete (n : nat) (pathKey remainingKey : list Z)
  : Descent nat (list Sample.Cell) (option nat * bool * option nat) :=
  CallDelNode n
    (OnMem (clearHash n)
       (fun _ =>
          if forallb isNibble remainingKey then Ret (None, true, None)
          else Ret (None, false, Some 3%nat))).

#[export] Instance ops : NodeOps := {|
  node := nat;
  NodeMem := list Sample.Cell;
  Hash := Sample.digestOf;
  getHash := fun n m => c ← m !! n; Sample.cellHash c;
  getKey := fun n m => from_option Sample.cellKey [] (m !! n);
  getDBKey := fun n m => c ← m !! n; Sample.cellDBKey c;
  descendHash := Sample.sampleDescendHash;
  descendHashWithCommit := Sample.sampleDescendHashWithCommit;
  makeLeafNode := Sample.newLeaf;
  makeDBNode := Sample.newDBNode;
  deserializeNode := Sample.sampleDeserialize;
  descendAdd := lateDescendAdd;
  descendDelete := lateDescendDelete
|}.

(** The manager, the cells and the store of [Sample.world0], the root
    cell holding the bytes 4, 2 under its digest of 32 sevens. *)
Definition world0 : World :=
  mkWorld
    {[ O := mkTrie (Some O) None (Some O) {[ [1; 3] := 1%nat ]} ]}
    [Sample.mkCell [] (Some []) (Some Sample.sevens) [4; 2];
     Sample.mkCell [1; 3] (Some [1; 3]) None [4; 9]]
    {[ O := mkDB {[ [1; 3] := [4; 9] ]} ∅ O O Sample.noFaults ]}.

End SampleLate.

(** ** Frames

    [keeps R c]: whatever way the computation [c] ends, the worlds
    before and after it are related by [R]. *)
Definition keeps {NO : NodeOps} {A} (R : World -> World -> Prop) (c : M A) : Prop :=
  forall w o w', c w = (o, w') -> R w w'.

Definition same_store {NO : NodeOps} (w w' : World) : Prop := dbs w' = dbs w.

(** ** The backing stores and the backing node of backing.go

    The file belongs to a revision of the package in which nodes are
    loaded through the interface [backing].  The node interface of that
    revision enters through two functions that live in other files:
    [deserializeNode], whose result may be a nil node, and the method
    [setHash] of the node it returns.  A backing store is a value, and a
    method that updates it returns the new one. *)
Module Backing.

Section Stores.
Context {node NodeMem : Type}.
Variable deserializeNode : list Z -> list Z -> NodeMem -> option node * NodeMem.
Variable setHash : node -> list Z -> NodeMem -> NodeMem.

(** The interface [backing]; [get] gives a possibly nil node. *)
Class backing (S : Type) : Type := {
  batchStart : S -> S;
  batchEnd : S -> S;
  get : S -> list Z -> NodeMem -> option node * NodeMem;
  set : S -> list Z -> list Z -> S * option error;
  del : S -> list Z -> S * option error;
  close : S -> S * option error
}.

Record memoryBackstore : Type := mkMemoryBackstore {
  db : gmap (list Z) (list Z)
}.

Definition makeMemoryBackstore : memoryBackstore := mkMemoryBackstore ∅.

Definition memoryBackstore_get (mb : memoryBackstore) (key : list Z)
  : NodeMem -> option node * NodeMem :=
  fun m =>
    match db mb !! key with
    | Some v => deserializeNode v key m
    | None => (None, m)
    end.

Definition memoryBackstore_set (mb : memoryBackstore) (key value : list Z)
  : memoryBackstore * option error :=
  (mkMemoryBackstore (<[key := value]> (db mb)), None).

Definition memoryBackstore_del (mb : memoryBackstore) (key : list Z)
  : memoryBackstore * option error :=
  (mkMemoryBackstore (delete key (db mb)), None).

Definition memoryBackstore_close (mb : memoryBackstore)
  : memoryBackstore * option error :=
  (mkMemoryBackstore ∅, None).

#[export] Instance memoryBackstore_backing : backing memoryBackstore := {|
  batchStart := fun mb => mb;
  batchEnd := fun mb => mb;
  get := memoryBackstore_get;
  set := memoryBackstore_set;
  del := memoryBackstore_del;
  close := memoryBackstore_close
|}.

Inductive nullBackstore : Type := mkNullBackstore.

Definition makeNullBackstore : nullBackstore := mkNullBackstore.

#[export] Instance nullBackstore_backing : backing nullBackstore := {|
  batchStart := fun nb => nb;
  batchEnd := fun nb => nb;
  get := fun nb key m => (None, m);
  set := fun nb key value => (nb, None);
  del := fun nb key => (nb, None);
  close := fun nb => (nb, None)
|}.

Record backingNode : Type := mkBackingNode {
  key : list Z;
  hash : list Z
}.

(** [makeBackingNode] keeps a copy of the key it is given. *)
Definition makeBackingNode (h : list Z) (k : list Z) : backingNode :=
  mkBackingNode k h.

Definition backingNode_setHash (ba : backingNode) (h : list Z) : backingNode :=
  mkBackingNode (key ba) h.

Definition backingNode_getKey (ba : backingNode) : list Z := key ba.

Definition backingNode_getHash (ba : backingNode) : list Z := hash ba.

(** [ba.get(store)]: the node found in the store under the key of the
    backing node, stamped with its hash; the call [n.setHash] on a nil
    [n] panics. *)
Definition backingNode_get {S} {B : backing S} (ba : backingNode) (store : S)
  : NodeMem -> outcome node * NodeMem :=
  fun m =>
    match get store (key ba) m with
    | (Some n, m') => (Done n, setHash n (hash ba) m')
    | (None, m') => (Panicked PanicNilDeref, m')
    end.

Definition backingNode_hashingCommit {S} {B : backing S} (ba : backingNode) (store : S)
  : option error := None.

Definition backingNode_hashing (ba : backingNode) : option error := None.

End Stores.

(** A node type for examples: a node is a number, its memory the list
    of the hashes set so far; empty bytes deserialize to the nil node. *)
Definition sampleDeserializeNode (v k : list Z) (m : list (option (list Z)))
  : option nat * list (option (list Z)) :=
  match v with
  | [] => (None, m)
  | _ :: _ => (Some (length m), m ++ [None])
  end.

Definition sampleSetHash (n : nat) (h : list Z) (m : list (option (list Z)))
  : list (option (list Z)) :=
  <[n := Some h]> m.

End Backing.

(** ** Nibble packing: proofs *)

Lemma isNibble_spec x : isNibble x = true <-> 0 <= x <= 15.
Proof. unfold isNibble. rewrite andb_true_iff, !Z.leb_le. tauto. Qed.

Lemma high_half_back hi lo :
  0 <= hi <= 15 -> 0 <= lo <= 15 ->
  Z.shiftr (Z.lor (Z.shiftl hi 4) lo) 4 = hi.
Proof.
  intros Hh Hl.
  rewrite Z.shiftr_lor, Z.shiftr_shiftl_l by lia.
  rewrite (Z.shiftr_div_pow2 lo) by lia.
  rewrite Z.div_small by (simpl; lia).
  simpl. now rewrite Z.lor_0_r.
Qed.

Lemma low_half_back hi lo :
  0 <= hi <= 15 -> 0 <= lo <= 15 ->
  Z.land (Z.lor (Z.shiftl hi 4) lo) 15 = lo.
Proof.
  intros Hh Hl.
  change 15 with (Z.ones 4).
  rewrite Z.land_ones by lia.
  rewrite <- Z.land_ones by lia.
  rewrite Z.land_lor_distr_l.
  rewrite !Z.land_ones by lia.
  rewrite Z.shiftl_mul_pow2 by lia.
  rewrite Z.mod_mul by (simpl; lia).
  rewrite Z.mod_small by (simpl; lia).
  apply Z.lor_0_l.
Qed.

Lemma low_half_clear hi : Z.land (Z.shiftl hi 4) 15 = 0.
Proof.
  change 15 with (Z.ones 4).
  rewrite Z.land_ones by lia.
  rewrite Z.shiftl_mul_pow2 by lia.
  apply Z.mod_mul. simpl; lia.
Qed.

Lemma high_half_alone hi : Z.shiftr (Z.shiftl hi 4) 4 = hi.
Proof. rewrite Z.shiftr_shiftl_l by lia. apply Z.shiftl_0_r. Qed.

(** Round trip, by induction on a bound of the length so that the
    two-nibble step of [pack] has an induction hypothesis. *)
Lemma pack_unpack_bounded (k : nat) :
  forall n : list Z,
    (length n <= k)%nat ->
    Forall (fun x => 0 <= x <= 15) n ->
    exists bs half,
      pack n = Some (bs, half) /\
      unpack bs half = Some n /\
      half = Nat.odd (length n) /\
      length bs = Nat.div2 (S (length n)) /\
      (bs = [] -> n = []).
Proof.
  induction k as [|k IH]; intros n Hlen Hn.
  - destruct n; [|simpl in Hlen; lia].
    exists [], false. repeat split; reflexivity.
  - destruct n as [|hi [|lo rest]].
    + exists [], false. repeat split; reflexivity.
    + inversion Hn as [|? ? Hhi _]; subst.
      exists [Z.shiftl hi 4], true. simpl.
      rewrite (proj2 (isNibble_spec hi) Hhi).
      rewrite low_half_clear, high_half_alone. simpl.
      repeat split; try reflexivity. discriminate.
    + inversion Hn as [|? ? Hhi Hn']; subst.
      inversion Hn' as [|? ? Hlo Hrest]; subst.
      destruct (IH rest) as (bs & half & Hp & Hu & Hodd & Hl & Hnil);
        [simpl in Hlen; lia | exact Hrest |].
      exists (Z.lor (Z.shiftl hi 4) lo :: bs), half.
      cbn [pack].
      rewrite (proj2 (isNibble_spec hi) Hhi), (proj2 (isNibble_spec lo) Hlo), Hp.
      cbn [andb unpack].
      rewrite high_half_back, low_half_back by assumption.
      repeat split.
      * destruct bs as [|b bs'].
        -- rewrite (Hnil eq_refl) in *. simpl in Hodd. subst half. reflexivity.
        -- rewrite Hu. reflexivity.
      * exact Hodd.
      * simpl. simpl in Hl. rewrite Hl. reflexivity.
      * discriminate.
Qed.

(** C7. Packing then unpacking a nibble path (every element in 0..15)
    gives the path back, and the three literal packings of scenario S3
    hold: [0,1,2,3,4] packs to 01 23 40 with the flag set,
    [0,1,2,3,4,5] to 01 23 45 without it, and the empty path to no bytes
    without it. *)
Theorem pack_unpack_roundtrip :
  (forall n : list Z,
      Forall (fun x => 0 <= x <= 15) n ->
      exists bs half, pack n = Some (bs, half) /\ unpack bs half = Some n) /\
  pack [0x0; 0x1; 0x2; 0x3; 0x4] = Some ([0x01; 0x23; 0x40], true) /\
  pack [0x0; 0x1; 0x2; 0x3; 0x4; 0x5] = Some ([0x01; 0x23; 0x45], false) /\
  pack [] = Some ([], false).
Proof.
  split; [|repeat split; reflexivity].
  intros n Hn.
  destruct (pack_unpack_bounded (length n) n (le_n _) Hn)
    as (bs & half & Hp & Hu & _).
  exists bs, half. split; assumption.
Qed.

Lemma pack_unpack_roundtrip_witness :
  exists bs half,
    pack [0x4; 0x1; 0x2; 0x3; 0x4] = Some (bs, half) /\
    unpack bs half = Some [0x4; 0x1; 0x2; 0x3; 0x4].
Proof.
  apply (proj1 pack_unpack_roundtrip).
  repeat (apply List.Forall_cons; [lia|]). apply List.Forall_nil.
Defined.

(** The vectors of [TestNibbleUtilities] and [TestNibbles]. *)
Example nibble_test_vectors :
  pack [0x4; 0x1; 0x2; 0x3; 0x4] = Some ([0x41; 0x23; 0x40], true) /\
  pack [0x0; 0x0; 0x2; 0x3; 0x5] = Some ([0x00; 0x23; 0x50], true) /\
  pack [0x1] = Some ([0x10], true) /\
  pack [0x12; 0x02; 0x03; 0x04] = None /\
  unpack [0x01; 0x29; 0x20] true = Some [0x0; 0x1; 0x2; 0x9; 0x2] /\
  unpack [0x01; 0x29; 0x20] false = Some [0x0; 0x1; 0x2; 0x9; 0x2; 0x0].
Proof. repeat split; reflexivity. Qed.

(** ** The manager: proofs *)

Section ManagerProofs.
Context {NO : NodeOps}.

(** *** The state monad *)

Lemma bind_inv {A B} (c : M A) (k : A -> M B) w o w' :
  bind c k w = (o, w') ->
  (exists a w1, c w = (Done a, w1) /\ k a w1 = (o, w')) \/
  (exists p, c w = (Panicked p, w') /\ o = Panicked p) \/
  (c w = (OutOfFuel, w') /\ o = OutOfFuel).
Proof.
  unfold bind. destruct (c w) as [[a|p|] w1]; intros H.
  - left. eauto.
  - right. left. inversion H; subst. eauto.
  - right. right. inversion H; subst. eauto.
Qed.

Lemma bind_Done {A B} (c : M A) (k : A -> M B) w b w' :
  bind c k w = (Done b, w') ->
  exists a w1, c w = (Done a, w1) /\ k a w1 = (Done b, w').
Proof.
  intros H. apply bind_inv in H as [H|[(p & _ & H)|(_ & H)]]; [exact H| |]; discriminate.
Qed.

Lemma getTrie_Done mt w t w' :
  getTrie mt w = (Done t, w') -> w' = w /\ tries w !! mt = Some t.
Proof. unfold getTrie. destruct (tries w !! mt); intros H; inversion H; auto. Qed.

Lemma getTrie_at mt w t : tries w !! mt = Some t -> getTrie mt w = (Done t, w).
Proof. unfold getTrie. now intros ->. Qed.

Lemma fold_insert_union {V} (m1 m2 : gmap (list Z) V) :
  map_fold (fun k v acc => <[k := v]> acc) m2 m1 = m1 ∪ m2.
Proof.
  apply (map_fold_weak_ind (fun r m => r = m ∪ m2)).
  - now rewrite (left_id_L ∅ (∪)).
  - intros i x m r _ ->. now rewrite insert_union_l.
Qed.

(** *** [merge] *)


Lemma merge_Done mt w r w' :
  merge mt w = (Done r, w') ->
  exists t,
    tries w !! mt = Some t /\ r = None /\
    nodes w' = nodes w /\ dbs w' = dbs w /\
    match parent t with
    | None => tries w' = tries w
    | Some p =>
        exists pt,
          tries w !! p = Some pt /\
          tries w' =
            <[p := mkTrie (db pt) (parent pt) (root t) (dels t ∪ dels pt)]> (tries w)
    end.
Proof.
  unfold merge. intros H.
  apply bind_Done in H as (t & w1 & Ht & H).
  apply getTrie_Done in Ht as [-> Ht].
  exists t. split; [exact Ht|].
  destruct (parent t) as [p|].
  - unfold setRoot, setDels, bind, ret, getTrie, putTrie in H. simpl in H.
    destruct (tries w !! p) as [pt|] eqn:Hp; [|discriminate].
    simpl in H. rewrite lookup_insert_eq in H. simpl in H.
    rewrite lookup_insert_eq in H. simpl in H.
    inversion H; subst; clear H. simpl.
    repeat split. exists pt. split; [reflexivity|].
    rewrite insert_insert_eq, fold_insert_union. reflexivity.
  - unfold ret in H. inversion H; subst. auto.
Qed.


(** *** The body of [Commit] *)

Lemma deleteAll_ok d ks : forall b b',
  deleteAll d b ks = (b', None) ->
  batchId b' = batchId b /\
  batchOps b' = batchOps b ++ map BatchDelete ks.
Proof.
  induction ks as [|k ks IH]; intros b b' H; simpl in H.
  - inversion H; subst. now rewrite app_nil_r.
  - unfold batchDelete in H.
    destruct (failDelete (faults d) k); [discriminate|].
    apply IH in H as [Hid Hops]. simpl in *.
    split; [exact Hid|]. now rewrite Hops, <- app_assoc.
Qed.

(** Unless it succeeds, the body leaves every manager as it was. *)
Lemma commitHere_tries mt t w o w' :
  commitHere mt t w = (o, w') ->
  o <> Done None ->
  tries w' = tries w.
Proof.
  unfold commitHere, setDels, getDB, putDB, withNodes, getTrie, putTrie, bind, ret.
  intros H Ho.
  repeat (case_match; simplify_eq/=); try reflexivity; congruence.
Qed.


Lemma commitHere_success mt t w w' :
  tries w !! mt = Some t ->
  commitHere mt t w = (Done None, w') ->
  exists l d ops,
    db t = Some l /\ dbs w !! l = Some d /\
    match root t with
    | Some r => descendHashWithCommit r [] (nodes w) = ((ops, None), nodes w')
    | None => ops = [] /\ nodes w' = nodes w
    end /\
    tries w' = <[mt := mkTrie (db t) (parent t) (root t) ∅]> (tries w) /\
    dbs w' =
      <[l := mkDB (foldl applyOp (kv d) (ops ++ map BatchDelete (pendingKeys t)))
                  (({[nextBatch d]} ∪ openBatches d) ∖ {[nextBatch d]})
                  (S (nextBatch d)) (openReaders d) (faults d)]> (dbs w).
Proof.
  intros Ht.
  unfold commitHere, setDels, getDB, putDB, withNodes, getTrie, putTrie,
    Apply, batchClose, NewBatch, bind, ret.
  intros H.
  destruct (db t) as [l|] eqn:Hdb; simpl in H; [|discriminate].
  destruct (dbs w !! l) as [d|] eqn:Hd; simpl in H; [|discriminate].
  exists l, d.
  destruct (root t) as [r|] eqn:Hr; simpl in H.
  - destruct (descendHashWithCommit r [] (nodes w)) as [[ops [c|]] m'] eqn:Hh;
      simpl in H; [discriminate|].
    destruct (deleteAll _ _ _) as [b2 [e|]] eqn:Hdel; [discriminate|].
    apply deleteAll_ok in Hdel as [Hid Hops]. simpl in Hid, Hops.
    simpl in H.
    destruct (failApply (faults d)); simpl in H; [discriminate|].
    destruct (failClose (faults d)); simpl in H; [discriminate|].
    rewrite Ht in H. simpl in H. inversion H; subst; clear H. simpl.
    exists ops. rewrite Hid, Hops, !insert_insert_eq.
    unfold pendingKeys. rewrite Hdb, Hr. auto.
  - simpl in H.
    destruct (deleteAll _ _ _) as [b2 [e|]] eqn:Hdel; [discriminate|].
    apply deleteAll_ok in Hdel as [Hid Hops]. simpl in Hid, Hops.
    simpl in H.
    destruct (failApply (faults d)); simpl in H; [discriminate|].
    destruct (failClose (faults d)); simpl in H; [discriminate|].
    rewrite Ht in H. simpl in H. inversion H; subst; clear H. simpl.
    exists []. rewrite Hid, Hops, !insert_insert_eq.
    unfold pendingKeys. rewrite Hdb, Hr. auto.
Qed.


(** *** Parent chains *)

Lemma chain_same_links ts ts' mt top d :
  same_links ts ts' -> chain ts mt top d -> chain ts' mt top d.
Proof.
  intros Hl Hc. induction Hc as [mt t Ht Hp|mt t p top d Ht Hp _ IH].
  - specialize (Hl mt). rewrite Ht in Hl. simpl in Hl.
    destruct (ts' !! mt) as [t'|] eqn:Ht'; simplify_eq/=.
    apply (chain_top _ _ _ Ht'). congruence.
  - specialize (Hl mt). rewrite Ht in Hl. simpl in Hl.
    destruct (ts' !! mt) as [t'|] eqn:Ht'; simplify_eq/=.
    apply (chain_step _ _ _ p _ _ Ht'); [congruence|exact IH].
Qed.

Lemma same_links_sym ts ts' : same_links ts ts' -> same_links ts' ts.
Proof. intros H x. symmetry. apply H. Qed.

Lemma same_links_insert ts (p : nat) (pt pt' : Trie) :
  ts !! p = Some pt -> parent pt' = parent pt ->
  same_links ts (<[p := pt']> ts).
Proof.
  intros Hp Hpar x. destruct (decide (p = x)) as [->|Hne].
  - rewrite lookup_insert_eq, Hp. simpl. now rewrite Hpar.
  - now rewrite lookup_insert_ne.
Qed.

Lemma chain_functional ts mt top d :
  chain ts mt top d -> forall top' d', chain ts mt top' d' -> top' = top /\ d' = d.
Proof.
  induction 1 as [mt t Ht Hp|mt t p top d Ht Hp _ IH]; intros top' d' Hc'.
  - inversion Hc'; simplify_eq; auto.
  - inversion Hc'; simplify_eq. destruct (IH _ _ H1) as [-> ->]. auto.
Qed.

Lemma merge_same_links mt w r w' :
  merge mt w = (Done r, w') -> same_links (tries w) (tries w').
Proof.
  intros H. apply merge_Done in H as (t & Ht & _ & _ & _ & H).
  destruct (parent t) as [p|].
  - destruct H as (pt & Hp & ->). eapply same_links_insert; [exact Hp|reflexivity].
  - rewrite H. intros x. reflexivity.
Qed.

(** A [Commit] that returns has walked a parent chain to its end. *)
Lemma Commit_Done_chain fuel : forall mt w r w',
  Commit fuel mt w = (Done r, w') ->
  exists top d, chain (tries w) mt top d /\ (d < fuel)%nat.
Proof.
  induction fuel as [|fuel IH]; intros mt w r w' H; simpl in H; [discriminate|].
  apply bind_Done in H as (t & w0 & Ht & H).
  apply getTrie_Done in Ht as [-> Ht].
  destruct (parent t) as [p|] eqn:Hp.
  - apply bind_Done in H as (r1 & w1 & Hm & H).
    apply IH in H as (top & d & Hc & Hd).
    exists top, (S d). split; [|lia].
    eapply chain_step; [exact Ht|exact Hp|].
    eapply chain_same_links; [|exact Hc].
    apply same_links_sym. eapply merge_same_links. exact Hm.
  - exists mt, O. split; [|lia]. eapply chain_top; eassumption.
Qed.

(** Managers strictly farther from the top than [mt] are out of the
    reach of [Commit] on [mt]. *)
Lemma Commit_frame fuel : forall mt w r w' x top dm topx dx,
  Commit fuel mt w = (Done r, w') ->
  chain (tries w) mt top dm -> chain (tries w) x topx dx -> (dm < dx)%nat ->
  tries w' !! x = tries w !! x.
Proof.
  induction fuel as [|fuel IH]; intros mt w r w' x top dm topx dx H Hm Hx Hlt;
    simpl in H; [discriminate|].
  apply bind_Done in H as (t & w0 & Ht & H).
  apply getTrie_Done in Ht as [-> Ht].
  assert (x <> mt) as Hne.
  { intros ->. destruct (chain_functional _ _ _ _ Hm _ _ Hx). lia. }
  destruct (parent t) as [p|] eqn:Hp.
  - apply bind_Done in H as (r1 & w1 & Hmg & H).
    pose proof (merge_same_links _ _ _ _ Hmg) as Hl.
    inversion Hm as [? t' Ht' Hp'|? t' p' ? d' Ht' Hp' Hc']; simplify_eq.
    assert (x <> p) as Hnp.
    { intros ->. destruct (chain_functional _ _ _ _ Hc' _ _ Hx). lia. }
    rewrite (IH p w1 r w' x top d' topx dx H); try lia;
      try (eapply chain_same_links; [exact Hl|eassumption]).
    apply merge_Done in Hmg as (t1 & Ht1 & _ & _ & _ & Hts).
    simplify_eq. rewrite Hp in Hts. destruct Hts as (pt & _ & ->).
    now rewrite lookup_insert_ne.
  - destruct (decide (r = None)) as [->|Hr].
    + apply (commitHere_success _ _ _ _ Ht) in H as (l & d & ops & _ & _ & _ & -> & _).
      now rewrite lookup_insert_ne.
    + apply commitHere_tries in H; [now rewrite H|congruence].
Qed.

(** With fuel beyond the length of the chain, [Commit] returns or
    panics: the fuel is not what ends it. *)
Lemma Commit_enough_fuel fuel : forall mt w top d,
  chain (tries w) mt top d -> (d < fuel)%nat ->
  (Commit fuel mt w).1 <> OutOfFuel.
Proof.
  induction fuel as [|fuel IH]; intros mt w top d Hc Hd; [lia|].
  simpl. unfold bind at 1.
  inversion Hc as [? t Ht Hp|? t p ? d' Ht Hp Hc']; simplify_eq.
  - rewrite (getTrie_at _ _ _ Ht), Hp.
    unfold commitHere, setDels, getDB, putDB, withNodes, getTrie, putTrie, bind, ret.
    repeat (case_match; simplify_eq/=); discriminate.
  - rewrite (getTrie_at _ _ _ Ht), Hp.
    unfold bind. destruct (merge mt w) as [[r1|pv|] w1] eqn:Hm; simpl.
    + eapply IH; [|instantiate (1 := d'); lia].
      eapply chain_same_links; [eapply merge_same_links; exact Hm|exact Hc'].
    + discriminate.
    + exfalso. revert Hm. unfold merge, setRoot, setDels, getTrie, putTrie, bind, ret.
      repeat (case_match; simplify_eq/=); discriminate.
Qed.


Lemma Commit_nested_untouched fuel mt w r w' t p :
  tries w !! mt = Some t -> parent t = Some p ->
  Commit fuel mt w = (Done r, w') ->
  tries w' !! mt = tries w !! mt.
Proof.
  intros Ht Hp H.
  destruct fuel as [|fuel]; simpl in H; [discriminate|].
  apply bind_Done in H as (t0 & w0 & Ht0 & H).
  apply getTrie_Done in Ht0 as [-> Ht0].
  assert (t0 = t) as -> by congruence. clear Ht0. rewrite Hp in H.
  apply bind_Done in H as (r1 & w1 & Hm & H).
  pose proof (merge_same_links _ _ _ _ Hm) as Hl.
  destruct (Commit_Done_chain _ _ _ _ _ H) as (top & d & Hc & _).
  assert (chain (tries w1) mt top (S d)) as Hcm.
  { eapply chain_same_links; [exact Hl|].
    eapply chain_step; [exact Ht|exact Hp|].
    eapply chain_same_links; [apply same_links_sym; exact Hl|exact Hc]. }
  rewrite (Commit_frame _ _ _ _ _ mt _ _ _ _ H Hc Hcm) by lia.
  apply merge_Done in Hm as (t1 & Ht1 & _ & _ & _ & Hts).
  assert (t1 = t) as -> by congruence. clear Ht1.
  rewrite Hp in Hts. destruct Hts as (pt & Hpt & ->).
  apply lookup_insert_ne. intros ->.
  destruct (chain_functional _ _ _ _ Hc _ _ Hcm). lia.
Qed.

(** The node memory after a successful [Commit] is the one left by
    [descendHashWithCommit] on the root of the manager it was called
    on. *)
Lemma Commit_success_nodes fuel : forall mt w w' t,
  Commit fuel mt w = (Done None, w') ->
  tries w !! mt = Some t ->
  match root t with
  | Some r => exists ops, descendHashWithCommit r [] (nodes w) = ((ops, None), nodes w')
  | None => nodes w' = nodes w
  end.
Proof.
  induction fuel as [|fuel IH]; intros mt w w' t H Ht; simpl in H; [discriminate|].
  apply bind_Done in H as (t0 & w0 & Ht0 & H).
  apply getTrie_Done in Ht0 as [-> Ht0].
  assert (t0 = t) as -> by congruence. clear Ht0.
  destruct (parent t) as [p|] eqn:Hp.
  - apply bind_Done in H as (r1 & w1 & Hm & H).
    apply merge_Done in Hm as (t1 & Ht1 & _ & Hn & _ & Hts).
    assert (t1 = t) as -> by congruence. clear Ht1.
    rewrite Hp in Hts. destruct Hts as (pt & Hpt & Hts).
    specialize (IH p w1 w' _ H ltac:(rewrite Hts; apply lookup_insert_eq)).
    simpl in IH. now rewrite Hn in IH.
  - apply (commitHere_success _ _ _ _ Ht) in H as (l & d & ops & _ & _ & Hh & _).
    destruct (root t); [eauto|tauto].
Qed.

Lemma foldl_deletes_gone (ks : list (list Z)) : forall (m : gmap (list Z) (list Z)) k,
  k ∈ ks \/ m !! k = None ->
  foldl applyOp m (map BatchDelete ks) !! k = None.
Proof.
  induction ks as [|k0 ks IH]; intros m k Hk; simpl.
  - destruct Hk as [Hk|Hk]; [by apply elem_of_nil in Hk|exact Hk].
  - apply IH. destruct (decide (k = k0)) as [->|Hne].
    + right. apply lookup_delete_eq.
    + destruct Hk as [Hk|Hk].
      * apply elem_of_cons in Hk as [Hk|Hk]; [contradiction|now left].
      * right. now rewrite lookup_delete_ne.
Qed.

Lemma foldl_deletes (ks : list (list Z)) (m : gmap (list Z) (list Z)) k :
  k ∈ ks -> foldl applyOp m (map BatchDelete ks) !! k = None.
Proof. intros Hk. apply foldl_deletes_gone. now left. Qed.

Lemma pendingKeys_elem (t : Trie) k : is_Some (dels t !! k) -> k ∈ pendingKeys t.
Proof.
  intros [v Hv]. unfold pendingKeys.
  change (k ∈ fst <$> map_to_list (dels t)).
  apply list_elem_of_fmap. exists (k, v). split; [reflexivity|].
  now apply elem_of_map_to_list.
Qed.

(** Every key pending on the manager is absent from the store of the
    top of its chain once [Commit] has succeeded. *)
Lemma Commit_success_deletes fuel : forall mt w w' t,
  Commit fuel mt w = (Done None, w') ->
  tries w !! mt = Some t ->
  exists top d ttop l dfin,
    chain (tries w) mt top d /\
    tries w !! top = Some ttop /\ db ttop = Some l /\
    dbs w' !! l = Some dfin /\
    forall k, is_Some (dels t !! k) -> kv dfin !! k = None.
Proof.
  induction fuel as [|fuel IH]; intros mt w w' t H Ht; simpl in H; [discriminate|].
  apply bind_Done in H as (t0 & w0 & Ht0 & H).
  apply getTrie_Done in Ht0 as [-> Ht0].
  assert (t0 = t) as -> by congruence. clear Ht0.
  destruct (parent t) as [p|] eqn:Hp.
  - apply bind_Done in H as (r1 & w1 & Hm & H).
    pose proof (merge_same_links _ _ _ _ Hm) as Hl.
    apply merge_Done in Hm as (t1 & Ht1 & _ & Hn & _ & Hts).
    assert (t1 = t) as -> by congruence. clear Ht1.
    rewrite Hp in Hts. destruct Hts as (pt & Hpt & Hts).
    destruct (IH p w1 w' _ H ltac:(rewrite Hts; apply lookup_insert_eq))
      as (top & d & ttop & l & dfin & Hc & Htop & Hdb & Hfin & Hk).
    assert (exists ttop0, tries w !! top = Some ttop0 /\ db ttop0 = Some l)
      as (ttop0 & Htop0 & Hdb0).
    { rewrite Hts in Htop. destruct (decide (p = top)) as [->|Hne].
      - rewrite lookup_insert_eq in Htop. simplify_eq. eauto.
      - rewrite lookup_insert_ne in Htop by exact Hne. eauto. }
    exists top, (S d), ttop0, l, dfin. repeat split; try assumption.
    + eapply chain_step; [exact Ht|exact Hp|].
      eapply chain_same_links; [apply same_links_sym; exact Hl|exact Hc].
    + intros k [v Hv]. apply Hk. simpl. exists v.
      now apply lookup_union_Some_l.
  - apply (commitHere_success _ _ _ _ Ht) in H
      as (l & d & ops & Hdb & Hd & _ & _ & Hdbs).
    exists mt, O, t, l. eexists. repeat split.
    + eapply chain_top; eassumption.
    + exact Ht.
    + exact Hdb.
    + rewrite Hdbs. apply lookup_insert_eq.
    + intros k Hk. simpl. rewrite foldl_app.
      apply foldl_deletes, pendingKeys_elem, Hk.
Qed.


(** *** Descents leave the roots alone *)

Lemma roots_kept_refl w : roots_kept w w.
Proof. intros x. reflexivity. Qed.

Lemma roots_kept_trans w1 w2 w3 :
  roots_kept w1 w2 -> roots_kept w2 w3 -> roots_kept w1 w3.
Proof. intros H12 H23 x. now rewrite H23, H12. Qed.

Lemma roots_kept_tries w w' : tries w' = tries w -> roots_kept w w'.
Proof. intros H x. now rewrite H. Qed.

Lemma setDels_roots mt ds w o w' :
  setDels mt ds w = (o, w') -> roots_kept w w'.
Proof.
  unfold setDels, getTrie, putTrie, bind. intros H.
  destruct (tries w !! mt) as [t|] eqn:Ht; simplify_eq/=.
  - intros x. simpl. destruct (decide (mt = x)) as [->|Hne].
    + now rewrite lookup_insert_eq, Ht.
    + now rewrite lookup_insert_ne.
  - apply roots_kept_refl.
Qed.

Lemma getNode_tries mt dbn w o w' :
  getNode mt dbn w = (o, w') -> tries w' = tries w.
Proof.
  unfold getNode, readNodes, getTrie, getDB, putDB, withNodes, panic, bind, ret.
  intros H.
  repeat (case_match; simplify_eq/=); reflexivity.
Qed.

Lemma addNode_roots mt n w o w' : addNode mt n w = (o, w') -> roots_kept w w'.
Proof.
  unfold addNode, readNodes. unfold bind at 1 2. unfold getTrie.
  destruct (tries w !! mt) as [t|] eqn:Ht; simpl.
  - apply setDels_roots.
  - intros H. simplify_eq. apply roots_kept_refl.
Qed.

Lemma delNode_roots mt n w o w' : delNode mt n w = (o, w') -> roots_kept w w'.
Proof.
  unfold delNode, readNodes. unfold bind at 1.
  destruct (getDBKey n (nodes w)).
  - unfold bind at 1. unfold getTrie.
    destruct (tries w !! mt) as [t|] eqn:Ht; simpl.
    + apply setDels_roots.
    + intros H. simplify_eq. apply roots_kept_refl.
  - unfold ret. intros H. simplify_eq. apply roots_kept_refl.
Qed.

Lemma run_roots {R} mt (p : Descent node NodeMem R) : forall w o w',
  run mt p w = (o, w') -> roots_kept w w'.
Proof.
  induction p as [r|pv|upd k IH|dbn k IH|n k IH|n k IH]; intros w o w' H; simpl in H.
  - unfold ret in H. simplify_eq. apply roots_kept_refl.
  - unfold panic in H. simplify_eq. apply roots_kept_refl.
  - unfold bind, withNodes in H. simpl in H.
    apply IH in H. intros x. apply (H x).
  - apply bind_inv in H as [(a & w1 & Hg & H)|[(p & Hg & _)|(Hg & _)]].
    + apply getNode_tries in Hg. apply IH in H.
      eapply roots_kept_trans; [apply roots_kept_tries; exact Hg|exact H].
    + apply roots_kept_tries. eapply getNode_tries. exact Hg.
    + apply roots_kept_tries. eapply getNode_tries. exact Hg.
  - apply bind_inv in H as [(a & w1 & Hg & H)|[(p & Hg & _)|(Hg & _)]].
    + eapply roots_kept_trans; [eapply addNode_roots; exact Hg|eapply IH; exact H].
    + eapply addNode_roots; exact Hg.
    + eapply addNode_roots; exact Hg.
  - apply bind_inv in H as [(a & w1 & Hg & H)|[(p & Hg & _)|(Hg & _)]].
    + eapply roots_kept_trans; [eapply delNode_roots; exact Hg|eapply IH; exact H].
    + eapply delNode_roots; exact Hg.
    + eapply delNode_roots; exact Hg.
Qed.

Lemma RootHash_at mt w t :
  tries w !! mt = Some t ->
  RootHash mt w =
    match root t with
    | None => (Done (zeroDigest, None), w)
    | Some r =>
        match getHash r (nodes w) with
        | Some h => (Done (h, None), w)
        | None =>
            match descendHash r (nodes w) with
            | (Some c, m) =>
                (Done (zeroDigest, Some (ErrNode c)), mkWorld (tries w) m (dbs w))
            | (None, m) =>
                match getHash r m with
                | Some h => (Done (h, None), mkWorld (tries w) m (dbs w))
                | None => (Panicked PanicNilDeref, mkWorld (tries w) m (dbs w))
                end
            end
        end
    end.
Proof.
  intros Ht.
  unfold RootHash, getTrie, readNodes, withNodes, panic, bind, ret.
  rewrite Ht. destruct (root t) as [r|]; [|reflexivity].
  destruct (getHash r (nodes w)); [reflexivity|].
  destruct (descendHash r (nodes w)) as [[c|] m]; simpl; [reflexivity|].
  destruct (getHash r m); reflexivity.
Qed.



(** A successful [Commit] on a manager without parent changes, in its
    record, the pending deletes only: they are reset. *)
Lemma Commit_top_success fuel mt w w' t :
  Commit fuel mt w = (Done None, w') ->
  tries w !! mt = Some t -> parent t = None ->
  tries w' !! mt = Some (mkTrie (db t) (parent t) (root t) ∅).
Proof.
  intros H Ht Hp.
  destruct fuel as [|fuel]; simpl in H; [discriminate|].
  apply bind_Done in H as (t0 & w0 & Ht0 & H).
  apply getTrie_Done in Ht0 as [-> Ht0].
  assert (t0 = t) as -> by congruence. clear Ht0.
  rewrite Hp in H.
  apply (commitHere_success _ _ _ _ Ht) in H as (l & d & ops & _ & _ & _ & -> & _).
  apply lookup_insert_eq.
Qed.

(** *** [Commit] and the state of the manager *)

(** C1. A [Commit] that returns an error leaves the manager it was
    called on as it was, root and pending deletes included; the pending
    deletes are reset to the empty map by a [Commit] that succeeds (on a
    manager without parent, the one whose body clears them). *)
Theorem Commit_error_keeps_state fuel mt w r w' :
  Commit fuel mt w = (Done r, w') ->
  (forall e, r = Some e -> tries w' !! mt = tries w !! mt) /\
  (forall t, tries w !! mt = Some t -> parent t = None -> r = None ->
     tries w' !! mt = Some (mkTrie (db t) (parent t) (root t) ∅)).
Proof.
  intros H. pose proof H as H0.
  destruct fuel as [|fuel]; simpl in H; [discriminate|].
  apply bind_Done in H as (t & w0 & Ht & H).
  apply getTrie_Done in Ht as [-> Ht].
  split.
  - intros e ->. destruct (parent t) as [p|] eqn:Hp.
    + eapply Commit_nested_untouched; eassumption.
    + apply commitHere_tries in H; [now rewrite H|discriminate].
  - intros t' Ht' Hp ->. eapply Commit_top_success; eassumption.
Qed.

(** C2. A successful [Commit] keeps the root of the manager, and with
    a hasher that obeys [HasherLaws] the digest [RootHash] returned
    before it is the digest [RootHash] returns after it. *)
Theorem Commit_keeps_root_digest (laws : HasherLaws) fuel mt w w' :
  Commit fuel mt w = (Done None, w') ->
  root <$> tries w' !! mt = root <$> tries w !! mt /\
  forall digest w0,
    RootHash mt w = (Done (digest, None), w0) ->
    (RootHash mt w').1 = Done (digest, None).
Proof.
  intros H.
  assert (exists t, tries w !! mt = Some t) as [t Ht].
  { destruct fuel as [|fuel]; simpl in H; [discriminate|].
    apply bind_Done in H as (t & w0 & Ht & _).
    apply getTrie_Done in Ht as [_ Ht]. eauto. }
  assert (root <$> tries w' !! mt = Some (root t)) as Hroot.
  { destruct (parent t) as [p|] eqn:Hp.
    - rewrite (Commit_nested_untouched _ _ _ _ _ _ _ Ht Hp H), Ht. reflexivity.
    - rewrite (Commit_top_success _ _ _ _ _ H Ht Hp). reflexivity. }
  split; [now rewrite Hroot, Ht|].
  intros digest w0 Hh.
  pose proof (Commit_success_nodes _ _ _ _ _ H Ht) as Hn.
  destruct (tries w' !! mt) as [t'|] eqn:Ht'; simplify_eq/=.
  rewrite (RootHash_at _ _ _ Ht) in Hh. rewrite (RootHash_at _ _ _ Ht'), Hroot.
  destruct (root t) as [r|]; [|now simplify_eq/=].
  destruct Hn as [ops Hn].
  destruct (getHash r (nodes w)) as [h|] eqn:Hg.
  - simplify_eq/=.
    now rewrite (commit_keeps_cache laws _ _ _ _ _ _ Hg Hn).
  - destruct (descendHash r (nodes w)) as [[c|] m1] eqn:Hd; [simplify_eq|].
    destruct (getHash r m1) as [h|] eqn:Hg1; [|simplify_eq].
    simplify_eq/=.
    rewrite (commit_same_digest laws _ _ _ _ _ _ Hg Hd Hn), Hg1. reflexivity.
Qed.

(** *** Failing descents *)

Lemma Add_error_roots mt key value w e w' :
  Add mt key value w = (Done (Some e), w') -> roots_kept w w'.
Proof.
  unfold Add. destruct (_ =? 0).
  { unfold ret. intros; simplify_eq. apply roots_kept_refl. }
  destruct (_ >? _).
  { unfold ret. intros; simplify_eq. apply roots_kept_refl. }
  intros H. apply bind_Done in H as (t & w0 & Ht & H).
  apply getTrie_Done in Ht as [-> Ht].
  destruct (root t) as [r|].
  - apply bind_Done in H as (res & w1 & Hrun & H).
    destruct res.2.
    + unfold ret in H. simplify_eq. eapply run_roots. exact Hrun.
    + apply bind_Done in H as (? & ? & _ & H). unfold ret in H. simplify_eq.
  - apply bind_Done in H as (? & ? & _ & H).
    apply bind_Done in H as (? & ? & _ & H).
    apply bind_Done in H as (? & ? & _ & H).
    unfold ret in H. simplify_eq.
Qed.

Lemma Delete_error_roots mt key w found e w' :
  Delete mt key w = (Done (found, Some e), w') -> roots_kept w w'.
Proof.
  unfold Delete. destruct (_ =? 0).
  { unfold ret. intros; simplify_eq. apply roots_kept_refl. }
  destruct (_ >? _).
  { unfold ret. intros; simplify_eq. apply roots_kept_refl. }
  intros H. apply bind_Done in H as (t & w0 & Ht & H).
  apply getTrie_Done in Ht as [-> Ht].
  destruct (root t) as [r|].
  - apply bind_Done in H as ([[replacement fnd] err] & w1 & Hrun & H).
    destruct err as [c|].
    + unfold ret in H. simplify_eq. eapply run_roots. exact Hrun.
    + destruct fnd.
      * apply bind_Done in H as (? & ? & _ & H). unfold ret in H. simplify_eq.
      * unfold ret in H. simplify_eq.
  - unfold ret in H. simplify_eq.
Qed.

(** *** Key length checks *)

Lemma Add_past_checks mt key value w r w' :
  (Z.of_nat (length key) =? 0) = false ->
  (Z.of_nat (length key) >? MaxKeyLength) = false ->
  Add mt key value w = (Done r, w') ->
  r = None \/ exists c, r = Some (ErrNode c).
Proof.
  intros H0 Hmax. unfold Add. rewrite H0, Hmax. intros H.
  apply bind_Done in H as (t & w0 & Ht & H).
  destruct (root t) as [r0|].
  - apply bind_Done in H as (res & w1 & _ & H).
    destruct res.2.
    + unfold ret in H. simplify_eq. eauto.
    + apply bind_Done in H as (? & ? & _ & H). unfold ret in H. simplify_eq. auto.
  - apply bind_Done in H as (? & ? & _ & H).
    apply bind_Done in H as (? & ? & _ & H).
    apply bind_Done in H as (? & ? & _ & H).
    unfold ret in H. simplify_eq. auto.
Qed.

Lemma Delete_past_checks mt key w found r w' :
  (Z.of_nat (length key) =? 0) = false ->
  (Z.of_nat (length key) >? MaxKeyLength) = false ->
  Delete mt key w = (Done (found, r), w') ->
  r = None \/ exists c, r = Some (ErrNode c).
Proof.
  intros H0 Hmax. unfold Delete. rewrite H0, Hmax. intros H.
  apply bind_Done in H as (t & w0 & Ht & H).
  destruct (root t) as [r0|].
  - apply bind_Done in H as ([[replacement fnd] err] & w1 & _ & H).
    destruct err as [c|].
    + unfold ret in H. simplify_eq. eauto.
    + destruct fnd.
      * apply bind_Done in H as (? & ? & _ & H). unfold ret in H. simplify_eq. auto.
      * unfold ret in H. simplify_eq. auto.
  - unfold ret in H. simplify_eq. auto.
Qed.

(** C4. [Add] and [Delete] return the empty-key error exactly for a key
    of length zero and the key-too-long error exactly for a key longer
    than 65535, and in both cases nothing has been changed. *)
Theorem key_length_errors mt key value w :
  ((Add mt key value w).1 = Done (Some ErrEmptyKey) <-> length key = O) /\
  ((Add mt key value w).1 = Done (Some ErrKeyTooLong) <->
     Z.of_nat (length key) > 65535) /\
  ((exists found, (Delete mt key w).1 = Done (found, Some ErrEmptyKey)) <->
     length key = O) /\
  ((exists found, (Delete mt key w).1 = Done (found, Some ErrKeyTooLong)) <->
     Z.of_nat (length key) > 65535) /\
  (length key = O \/ Z.of_nat (length key) > 65535 ->
     (Add mt key value w).2 = w /\ (Delete mt key w).2 = w).
Proof.
  destruct (Z.of_nat (length key) =? 0) eqn:H0.
  { apply Z.eqb_eq in H0.
    assert (length key = O) as Hl by lia.
    unfold Add, Delete. rewrite Hl. simpl. unfold ret. simpl.
    repeat split;
      try (intros; try lia; try discriminate; eauto; fail);
      intros [found H]; discriminate. }
  apply Z.eqb_neq in H0 as H0'.
  destruct (Z.of_nat (length key) >? MaxKeyLength) eqn:Hmax.
  { pose proof Hmax as Hmax'. unfold MaxKeyLength in Hmax'.
    rewrite Z.gtb_ltb, Z.ltb_lt in Hmax'.
    unfold Add, Delete. rewrite H0, Hmax. unfold ret. simpl.
    repeat split;
      try (intros; try lia; try discriminate; eauto; fail);
      intros [found H]; discriminate. }
  pose proof Hmax as Hmax'. unfold MaxKeyLength in Hmax'.
  rewrite Z.gtb_ltb, Z.ltb_ge in Hmax'.
  assert (forall e, (forall c, e <> ErrNode c) ->
            (Add mt key value w).1 <> Done (Some e)) as HA.
  { intros e He Hr.
    destruct (Add mt key value w) as [o w'] eqn:E. simpl in Hr. subst o.
    destruct (Add_past_checks _ _ _ _ _ _ H0 Hmax E) as [?|[c ?]];
      simplify_eq. now apply (He c). }
  assert (forall found e, (forall c, e <> ErrNode c) ->
            (Delete mt key w).1 <> Done (found, Some e)) as HD.
  { intros found e He Hr.
    destruct (Delete mt key w) as [o w'] eqn:E. simpl in Hr. subst o.
    destruct (Delete_past_checks _ _ _ _ _ _ H0 Hmax E) as [?|[c ?]];
      simplify_eq. now apply (He c). }
  repeat split; try (intros; lia).
  - intros H. exfalso. now apply (HA ErrEmptyKey).
  - intros H. exfalso. now apply (HA ErrKeyTooLong).
  - intros [found H]. exfalso. now apply (HD found ErrEmptyKey).
  - intros [found H]. exfalso. now apply (HD found ErrKeyTooLong).
Qed.

(** *** [getNode] *)

(** The placeholder enters [getNode] through its database key and its
    key path only: two placeholders that agree on both give the same
    result and the same world, whatever their digests. *)
Lemma getNode_ignores_hash mt dbn1 dbn2 w :
  getDBKey dbn1 (nodes w) = getDBKey dbn2 (nodes w) ->
  getKey dbn1 (nodes w) = getKey dbn2 (nodes w) ->
  getNode mt dbn1 w = getNode mt dbn2 w.
Proof.
  intros Hk Hp. unfold getNode, readNodes, bind. simpl.
  now rewrite Hk, Hp.
Qed.

(** C5, as amended.  For a placeholder with a database key: when the
    key is among the pending deletes the result is "absent" without
    error and nothing is touched, the store included; otherwise the key
    is read from the store, and an error of the store makes [getNode]
    panic with that error; on a successful read [getNode] returns,
    without error, the node [deserializeNode] makes of the bytes and of
    the placeholder's key path, and an error of [deserializeNode] makes
    it panic. *)
Theorem getNode_behaviour mt dbn w t k :
  tries w !! mt = Some t ->
  getDBKey dbn (nodes w) = Some k ->
  (is_Some (dels t !! k) -> getNode mt dbn w = (Done (None, None), w)) /\
  (dels t !! k = None ->
   forall l d, db t = Some l -> dbs w !! l = Some d ->
     match Get d k with
     | ((_, Some e), _) => (getNode mt dbn w).1 = Panicked (PanicError e)
     | ((bs, None), _) =>
         match deserializeNode bs (getKey dbn (nodes w)) (nodes w) with
         | ((n, None), _) => (getNode mt dbn w).1 = Done (n, None)
         | ((_, Some c), _) =>
             (getNode mt dbn w).1 = Panicked (PanicError (ErrNode c))
         end
     end).
Proof.
  intros Ht Hk.
  unfold getNode, readNodes, getTrie, getDB, putDB, withNodes, panic, bind, ret.
  rewrite Hk, Ht. split.
  - intros [v Hv]. now rewrite Hv.
  - intros Hnone l d Hdb Hd. rewrite Hnone, Hdb, Hd.
    destruct (Get d k) as [[bs [e|]] d1]; simpl; [reflexivity|].
    destruct (deserializeNode bs (getKey dbn (nodes w)) (nodes w))
      as [[n [c|]] m'] eqn:Hdes; simpl; reflexivity.
Qed.

(** *** [RootHash] on a new manager *)

(** C6. [MakeTrie] gives a manager on which [RootHash] returns the zero
    digest, 32 zero bytes, and no error. *)
Theorem RootHash_of_new_trie d w :
  exists mt w',
    MakeTrie d w = (Done (mt, None), w') /\
    RootHash mt w' = (Done (zeroDigest, None), w') /\
    length zeroDigest = 32%nat /\
    Forall (fun b => b = 0) zeroDigest.
Proof.
  eexists _, _. split; [reflexivity|]. split; [|split].
  - rewrite (RootHash_at _ _ (mkTrie d None None ∅)); [reflexivity|].
    simpl. apply lookup_insert_eq.
  - reflexivity.
  - unfold zeroDigest. apply Forall_replicate. reflexivity.
Qed.


(** *** Nested managers *)

Lemma merge_run mt w t p pt :
  tries w !! mt = Some t -> parent t = Some p -> tries w !! p = Some pt ->
  merge mt w =
    (Done None,
     mkWorld (<[p := mkTrie (db pt) (parent pt) (root t) (dels t ∪ dels pt)]> (tries w))
             (nodes w) (dbs w)).
Proof.
  intros Ht Hp Hpt.
  unfold merge, setRoot, setDels, getTrie, putTrie, bind, ret.
  rewrite Ht, Hp, Hpt. simpl. repeat (rewrite lookup_insert_eq; simpl).
  now rewrite insert_insert_eq, fold_insert_union.
Qed.

(** C8. [child] makes a manager with the root of its parent, an empty
    set of pending deletes and the parent link; [merge] writes the root
    of the nested manager over the parent's and copies every pending
    delete of the nested manager into the parent's map, whose other
    entries stay; [Commit] on a nested manager is [merge] followed by
    [Commit] on the parent. *)
Theorem nested_manager mt w t :
  tries w !! mt = Some t ->
  (exists ch w',
      child mt w = (Done ch, w') /\
      tries w !! ch = None /\
      tries w' = <[ch := mkTrie None (Some mt) (root t) ∅]> (tries w) /\
      nodes w' = nodes w /\ dbs w' = dbs w) /\
  (forall p pt,
      parent t = Some p -> tries w !! p = Some pt ->
      exists w' pt',
        merge mt w = (Done None, w') /\
        tries w' = <[p := pt']> (tries w) /\
        nodes w' = nodes w /\ dbs w' = dbs w /\
        root pt' = root t /\ db pt' = db pt /\ parent pt' = parent pt /\
        (forall k v, dels t !! k = Some v -> dels pt' !! k = Some v) /\
        (forall k, dels t !! k = None -> dels pt' !! k = dels pt !! k)) /\
  (forall p fuel,
      parent t = Some p ->
      Commit (S fuel) mt w = (merge mt ;;; Commit fuel p) w).
Proof.
  intros Ht. split; [|split].
  - eexists _, _. unfold child, bind. rewrite (getTrie_at _ _ _ Ht).
    split; [reflexivity|]. simpl. repeat split.
    apply not_elem_of_dom, is_fresh.
  - intros p pt Hp Hpt. eexists _, _.
    split; [apply (merge_run _ _ _ _ _ Ht Hp Hpt)|]. simpl.
    repeat split.
    + intros k v Hv. now apply lookup_union_Some_l.
    + intros k Hk. now apply lookup_union_r.
  - intros p fuel Hp. simpl. unfold bind at 1.
    now rewrite (getTrie_at _ _ _ Ht), Hp.
Qed.

(** *** The batch of [Commit] *)

(** Whatever the error the body of [Commit] returns, the batch it
    obtained from the store has not been closed. *)
Lemma commitHere_error_leaves_batch mt t w e w' :
  commitHere mt t w = (Done (Some e), w') ->
  exists l d d',
    db t = Some l /\ dbs w !! l = Some d /\ dbs w' !! l = Some d' /\
    nextBatch d ∈ openBatches d'.
Proof.
  unfold commitHere, setDels, getDB, putDB, withNodes, getTrie, putTrie,
    Apply, batchClose, NewBatch, bind, ret.
  intros H.
  destruct (db t) as [l|] eqn:Hdb; simpl in H; [|discriminate].
  destruct (dbs w !! l) as [d|] eqn:Hd; simpl in H; [|discriminate].
  enough (exists d', dbs w' !! l = Some d' /\ nextBatch d ∈ openBatches d')
    as (d' & ? & ?) by (exists l, d, d'; auto).
  clear Hd Hdb.
  repeat (case_match; simplify_eq/=);
    eexists; (split; [apply lookup_insert_eq|]); simpl; set_solver.
Qed.

(** *** [SetRoot] *)

(** C10. [SetRoot] puts the placeholder made by [makeDBNode] for the
    digest and the empty path in the root field and keeps the pending
    deletes; a [Commit] that then succeeds leaves none of those keys in
    the store it writes to, the store of the top of the parent chain. *)
Theorem SetRoot_keeps_pending mt digest w w1 :
  SetRoot mt digest w = (Done tt, w1) ->
  exists t,
    tries w !! mt = Some t /\
    tries w1 !! mt =
      Some (mkTrie (db t) (parent t)
                   (Some (makeDBNode digest [] (nodes w)).1) (dels t)) /\
    nodes w1 = (makeDBNode digest [] (nodes w)).2 /\
    forall fuel w2,
      Commit fuel mt w1 = (Done None, w2) ->
      exists top d ttop l dfin,
        chain (tries w1) mt top d /\
        tries w1 !! top = Some ttop /\ db ttop = Some l /\
        dbs w2 !! l = Some dfin /\
        forall k, is_Some (dels t !! k) -> kv dfin !! k = None.
Proof.
  unfold SetRoot, setRoot, withNodes, getTrie, putTrie, bind.
  destruct (makeDBNode digest [] (nodes w)) as [n m] eqn:Hmk. simpl.
  destruct (tries w !! mt) as [t|] eqn:Ht; [|discriminate].
  intros H. simplify_eq/=. exists t.
  split; [reflexivity|]. split; [apply lookup_insert_eq|]. split; [reflexivity|].
  intros fuel w2 Hc.
  eapply (Commit_success_deletes fuel mt _ w2
            (mkTrie (db t) (parent t) (Some n) (dels t))) in Hc;
    [exact Hc|]. simpl. apply lookup_insert_eq.
Qed.

End ManagerProofs.

(** ** The manager on the sample implementation *)

Import Sample.

Lemma sample_hasher_laws : @HasherLaws Sample.ops.
Proof.
  split; simpl; unfold sampleDescendHash, sampleDescendHashWithCommit.
  - intros r ops0 m ops' m' h Hg.
    destruct (m !! r) as [c|] eqn:Hc; simpl in Hg; [|discriminate].
    rewrite Hg. intros H. simplify_eq. now rewrite Hc.
  - intros r ops0 m ops' m1 m2 Hg.
    destruct (m !! r) as [c|] eqn:Hc; simpl in Hg; [|discriminate].
    rewrite Hg. intros H1 H2. simplify_eq. reflexivity.
Qed.

Lemma Commit_error_keeps_state_witness :
  Commit 1 O (world0 applyFails) =
    (Done (Some (ErrPebble 9)), (Commit 1 O (world0 applyFails)).2) /\
  tries (Commit 1 O (world0 applyFails)).2 !! O = tries (world0 applyFails) !! O.
Proof.
  assert (Commit 1 O (world0 applyFails) =
            (Done (Some (ErrPebble 9)), (Commit 1 O (world0 applyFails)).2)) as H
    by (vm_compute; reflexivity).
  split; [exact H|].
  exact (proj1 (Commit_error_keeps_state _ _ _ _ _ H) _ eq_refl).
Defined.

Lemma Commit_keeps_root_digest_witness :
  Commit 1 O (world0 noFaults) = (Done None, (Commit 1 O (world0 noFaults)).2) /\
  RootHash O (world0 noFaults) = (Done (sevens, None), world0 noFaults) /\
  (RootHash O (Commit 1 O (world0 noFaults)).2).1 = Done (sevens, None).
Proof.
  assert (Commit 1 O (world0 noFaults) =
            (Done None, (Commit 1 O (world0 noFaults)).2)) as H
    by (vm_compute; reflexivity).
  assert (RootHash O (world0 noFaults) = (Done (sevens, None), world0 noFaults)) as Hh
    by (vm_compute; reflexivity).
  split; [exact H|]. split; [exact Hh|].
  exact (proj2 (Commit_keeps_root_digest sample_hasher_laws _ _ _ _ H) _ _ Hh).
Defined.

Lemma key_length_errors_witness :
  length ([] : list Z) = O /\
  (Add O [] [1] (world0 noFaults)).1 = Done (Some ErrEmptyKey) /\
  (Add O [] [1] (world0 noFaults)).2 = world0 noFaults /\
  (Delete O [] (world0 noFaults)).2 = world0 noFaults.
Proof.
  split; [reflexivity|]. split.
  - exact (proj2 (proj1 (key_length_errors O [] [1] (world0 noFaults))) eq_refl).
  - exact (proj2 (proj2 (proj2 (proj2 (key_length_errors O [] [1] (world0 noFaults)))))
             (or_introl eq_refl)).
Defined.

(** C5, against the claim as stated, on its two points.  (1) The
    placeholder in cell 0 has the database key [] and is not scheduled
    for deletion, and the store answers [Get] with an error: [getNode]
    panics with that error; it does not return it.  (2) The
    placeholders in cells 0 and 1 of [world3] have the same key path and
    database key and the digests of 32 sevens and of 32 nines: the load
    succeeds and gives the same node and the same world for both, and
    the digest cache of the node loaded holds neither digest. *)
Lemma getNode_panics_and_does_not_stamp :
  (getDBKey O (nodes (world0 getFails)) = Some [] /\
   (Get (mkDB {[ [1; 3] := [4; 9] ]} ∅ O O getFails) []).1.2 = Some (ErrPebble 5) /\
   (getNode O O (world0 getFails)).1 = Panicked (PanicError (ErrPebble 5)) /\
   ~ (exists r e, (getNode O O (world0 getFails)).1 = Done (r, Some e))) /\
  (getHash O (nodes (world3 noFaults)) = Some sevens /\
   getHash 1%nat (nodes (world3 noFaults)) = Some nines /\
   (getNode O O (world3 noFaults)).1 = Done (Some 2%nat, None) /\
   getNode O 1%nat (world3 noFaults) = getNode O O (world3 noFaults) /\
   getHash 2%nat (nodes (getNode O O (world3 noFaults)).2) = None /\
   getHash 2%nat (nodes (getNode O O (world3 noFaults)).2) <> Some sevens /\
   getHash 2%nat (nodes (getNode O 1%nat (world3 noFaults)).2) <> Some nines).
Proof.
  assert ((getNode O O (world0 getFails)).1 = Panicked (PanicError (ErrPebble 5))) as H
    by (vm_compute; reflexivity).
  split.
  - repeat split; try exact H; try (vm_compute; reflexivity).
    intros (r & e & He). rewrite H in He. discriminate.
  - repeat split; try (vm_compute; reflexivity); vm_compute; discriminate.
Qed.

Lemma getNode_behaviour_witness :
  tries (world0 noFaults) !! O =
    Some (mkTrie (Some O) None (Some O) {[ [1; 3] := 1%nat ]}) /\
  getDBKey 1%nat (nodes (world0 noFaults)) = Some [1; 3] /\
  getNode O 1%nat (world0 noFaults) = (Done (None, None), world0 noFaults) /\
  tries (world3 noFaults) !! O = Some (mkTrie (Some O) None (Some O) ∅) /\
  getDBKey O (nodes (world3 noFaults)) = Some [] /\
  dbs (world3 noFaults) !! O = Some (mkDB {[ [] := [4; 7] ]} ∅ O O noFaults) /\
  (getNode O O (world3 noFaults)).1 = Done (Some 2%nat, None).
Proof.
  assert (tries (world0 noFaults) !! O =
            Some (mkTrie (Some O) None (Some O) {[ [1; 3] := 1%nat ]})) as Ht
    by (vm_compute; reflexivity).
  assert (getDBKey 1%nat (nodes (world0 noFaults)) = Some [1; 3]) as Hk
    by reflexivity.
  assert (tries (world3 noFaults) !! O = Some (mkTrie (Some O) None (Some O) ∅)) as Ht3
    by (vm_compute; reflexivity).
  assert (getDBKey O (nodes (world3 noFaults)) = Some []) as Hk3 by reflexivity.
  assert (dbs (world3 noFaults) !! O =
            Some (mkDB {[ [] := [4; 7] ]} ∅ O O noFaults)) as Hd3
    by (vm_compute; reflexivity).
  split; [exact Ht|]. split; [exact Hk|]. split.
  - apply (proj1 (getNode_behaviour _ _ _ _ _ Ht Hk)).
    exists 1%nat. vm_compute. reflexivity.
  - split; [exact Ht3|]. split; [exact Hk3|]. split; [exact Hd3|].
    exact (proj2 (getNode_behaviour _ _ _ _ _ Ht3 Hk3) eq_refl O _ eq_refl Hd3).
Defined.

(** Loading through [getNode]: the placeholder in cell 1 of a manager
    with nothing pending is read from the store and deserialized into a
    new cell, whose digest cache is empty. *)
Example getNode_loads :
  let w := mkWorld {[ O := mkTrie (Some O) None (Some O) ∅ ]}
                   (nodes (world0 noFaults)) (dbs (world0 noFaults)) in
  (getNode O 1%nat w).1 = Done (Some 2%nat, None) /\
  getHash 1%nat (nodes w) = None /\
  getHash 2%nat (nodes (getNode O 1%nat w).2) = None /\
  openReaders <$> dbs (getNode O 1%nat w).2 !! O = Some O.
Proof. vm_compute. repeat split. Qed.

Lemma nested_manager_witness :
  tries world2 !! 1%nat = Some (mkTrie None (Some O) (Some 1%nat) {[ [2] := O ]}) /\
  (exists w' pt',
      merge 1%nat world2 = (Done None, w') /\
      tries w' = <[O := pt']> (tries world2) /\
      nodes w' = nodes world2 /\ dbs w' = dbs world2 /\
      root pt' = Some 1%nat /\ db pt' = Some O /\ parent pt' = None /\
      (forall k v, ({[ [2] := O ]} : gmap (list Z) nat) !! k = Some v ->
                   dels pt' !! k = Some v) /\
      (forall k, ({[ [2] := O ]} : gmap (list Z) nat) !! k = None ->
                 dels pt' !! k = ({[ [1; 3] := 1%nat ]} : gmap (list Z) nat) !! k)) /\
  forall fuel,
    Commit (S fuel) 1%nat world2 = (merge 1%nat ;;; Commit fuel O) world2.
Proof.
  assert (tries world2 !! 1%nat =
            Some (mkTrie None (Some O) (Some 1%nat) {[ [2] := O ]})) as Ht
    by (vm_compute; reflexivity).
  assert (tries world2 !! O =
            Some (mkTrie (Some O) None (Some O) {[ [1; 3] := 1%nat ]})) as Hp
    by (vm_compute; reflexivity).
  split; [exact Ht|]. split.
  - exact (proj1 (proj2 (nested_manager _ _ _ Ht)) O _ eq_refl Hp).
  - intros fuel.
    exact (proj2 (proj2 (nested_manager _ _ _ Ht)) O fuel eq_refl).
Defined.

(** Committing the nested manager of [world2]: both pending keys leave
    the store, the parent takes the nested root and ends with nothing
    pending, the nested manager keeps what it had. *)
Example nested_commit_runs :
  (Commit 2 1%nat world2).1 = Done None /\
  kv <$> dbs (Commit 2 1%nat world2).2 !! O = Some ∅ /\
  root <$> tries (Commit 2 1%nat world2).2 !! O = Some (Some 1%nat) /\
  tries (Commit 2 1%nat world2).2 !! 1%nat = tries world2 !! 1%nat.
Proof. vm_compute. repeat split. Qed.

(** C9, at a failing input.  A manager without parent and without
    root, with one pending delete, on a store whose [Apply] fails:
    [Commit] returns the error of [Apply], and the batch it obtained
    (number 0, the store had none open) is still open afterwards.  On
    the same manager with a store that does not fail, the batch is
    closed: [b.Close()] is reached on the successful path only. *)
Theorem Commit_error_leaves_batch_open :
  (Commit 1 O (world1 applyFails)).1 = Done (Some (ErrPebble 9)) /\
  openBatches <$> dbs (world1 applyFails) !! O = Some ∅ /\
  openBatches <$> dbs (Commit 1 O (world1 applyFails)).2 !! O = Some {[ O ]} /\
  (Commit 1 O (world1 noFaults)).1 = Done None /\
  openBatches <$> dbs (Commit 1 O (world1 noFaults)).2 !! O = Some ∅.
Proof. vm_compute. repeat split. Qed.

Lemma SetRoot_keeps_pending_witness :
  SetRoot O sevens (world0 noFaults) = (Done tt, (SetRoot O sevens (world0 noFaults)).2) /\
  Commit 1 O (SetRoot O sevens (world0 noFaults)).2 =
    (Done None, (Commit 1 O (SetRoot O sevens (world0 noFaults)).2).2) /\
  exists t,
    tries (world0 noFaults) !! O = Some t /\
    tries (SetRoot O sevens (world0 noFaults)).2 !! O =
      Some (mkTrie (db t) (parent t) (Some 2%nat) (dels t)) /\
    exists top d ttop l dfin,
      chain (tries (SetRoot O sevens (world0 noFaults)).2) O top d /\
      tries (SetRoot O sevens (world0 noFaults)).2 !! top = Some ttop /\
      db ttop = Some l /\
      dbs (Commit 1 O (SetRoot O sevens (world0 noFaults)).2).2 !! l = Some dfin /\
      forall k, is_Some (dels t !! k) -> kv dfin !! k = None.
Proof.
  assert (SetRoot O sevens (world0 noFaults) =
            (Done tt, (SetRoot O sevens (world0 noFaults)).2)) as H
    by (vm_compute; reflexivity).
  assert (Commit 1 O (SetRoot O sevens (world0 noFaults)).2 =
            (Done None, (Commit 1 O (SetRoot O sevens (world0 noFaults)).2).2)) as HC
    by (vm_compute; reflexivity).
  split; [exact H|]. split; [exact HC|].
  destruct (SetRoot_keeps_pending _ _ _ _ H) as (t & Ht & Ht1 & _ & Hdel).
  exists t. split; [exact Ht|]. split; [exact Ht1|].
  exact (Hdel _ _ HC).
Defined.

(** After [SetRoot] on the manager of [world0], [Commit] still removes
    the key that was pending. *)
Example SetRoot_then_Commit :
  let w1 := (SetRoot O sevens (world0 noFaults)).2 in
  kv <$> dbs (world0 noFaults) !! O = Some {[ [1; 3] := [4; 9] ]} /\
  (Commit 1 O w1).1 = Done None /\
  kv <$> dbs (Commit 1 O w1).2 !! O = Some ∅.
Proof. vm_compute. repeat split. Qed.

(** ** The manager: more proofs *)

Section MoreManagerProofs.
Context {NO : NodeOps}.

Lemma keeps_ret {A} (R : World -> World -> Prop) `{!Reflexive R} (a : A) :
  keeps R (ret a).
Proof. intros w o w' H. unfold ret in H. simplify_eq. reflexivity. Qed.

Lemma keeps_panic {A} (R : World -> World -> Prop) `{!Reflexive R} p :
  keeps R (@panic _ A p).
Proof. intros w o w' H. unfold panic in H. simplify_eq. reflexivity. Qed.

Lemma keeps_bind {A B} (R : World -> World -> Prop) `{!Transitive R}
    (c : M A) (k : A -> M B) :
  keeps R c -> (forall a, keeps R (k a)) -> keeps R (bind c k).
Proof.
  intros Hc Hk w o w' H.
  apply bind_inv in H as [(a & w1 & Hca & Hka)|[(p & Hcp & _)|(Hcf & _)]].
  - transitivity w1; [eapply Hc; exact Hca|eapply Hk; exact Hka].
  - eapply Hc; exact Hcp.
  - eapply Hc; exact Hcf.
Qed.

#[local] Instance same_store_refl : Reflexive same_store.
Proof. intros w. reflexivity. Qed.
#[local] Instance same_store_trans : Transitive same_store.
Proof. intros w1 w2 w3 H12 H23. unfold same_store in *. congruence. Qed.

Lemma keeps_getTrie R `{!Reflexive R} mt : keeps R (getTrie mt).
Proof.
  intros w o w' H. unfold getTrie in H.
  destruct (tries w !! mt); simplify_eq; reflexivity.
Qed.

Lemma keeps_readNodes R `{!Reflexive R} : keeps R readNodes.
Proof. intros w o w' H. unfold readNodes in H. simplify_eq. reflexivity. Qed.

Lemma store_putTrie mt t : keeps same_store (putTrie mt t).
Proof. intros w o w' H. unfold putTrie in H. simplify_eq. reflexivity. Qed.

Lemma store_withNodes {A} (f : NodeMem -> A * NodeMem) : keeps same_store (withNodes f).
Proof.
  intros w o w' H. unfold withNodes in H.
  destruct (f (nodes w)). simplify_eq. reflexivity.
Qed.

Lemma store_setRoot mt r : keeps same_store (setRoot mt r).
Proof.
  apply keeps_bind; [apply _|apply keeps_getTrie, _|intros; apply store_putTrie].
Qed.

Lemma store_setDels mt ds : keeps same_store (setDels mt ds).
Proof.
  apply keeps_bind; [apply _|apply keeps_getTrie, _|intros; apply store_putTrie].
Qed.

(** [Get] followed by the release of its handle leaves the store as it
    was; a failing [Get] hands out no handle. *)
Lemma Get_release d k v d1 : Get d k = ((v, None), d1) -> closeReader d1 = d.
Proof.
  unfold Get. destruct (failGet (faults d) k); [discriminate|].
  destruct (kv d !! k); [|discriminate].
  intros H. simplify_eq. destruct d. reflexivity.
Qed.

Lemma Get_error d k v e d1 : Get d k = ((v, Some e), d1) -> d1 = d.
Proof.
  unfold Get. destruct (failGet (faults d) k); [intros; simplify_eq; reflexivity|].
  destruct (kv d !! k); intros; simplify_eq. reflexivity.
Qed.

Lemma getNode_frame mt dbn w o w' :
  getNode mt dbn w = (o, w') -> tries w' = tries w /\ dbs w' = dbs w.
Proof.
  intros H. split; [eapply getNode_tries; exact H|].
  revert H.
  unfold getNode, readNodes, getTrie, getDB, putDB, withNodes, panic, bind, ret.
  destruct (getDBKey dbn (nodes w)) as [k|]; [|intros; simplify_eq; reflexivity].
  destruct (tries w !! mt) as [t|]; [|intros; simplify_eq; reflexivity].
  destruct (dels t !! k); [intros; simplify_eq; reflexivity|].
  destruct (db t) as [l|]; [|intros; simplify_eq; reflexivity].
  destruct (dbs w !! l) as [d|] eqn:Hd; [|intros; simplify_eq; reflexivity].
  destruct (Get d k) as [[bs [e|]] d1] eqn:HG; simpl.
  - apply Get_error in HG as ->. intros H. simplify_eq. simpl.
    now apply insert_id.
  - apply Get_release in HG.
    destruct (deserializeNode bs (getKey dbn (nodes w)) (nodes w)) as [[n [c|]] m'];
      simpl; intros H; inversion H; simpl;
      rewrite insert_insert_eq, HG; now apply insert_id.
Qed.

Lemma store_getNode mt dbn : keeps same_store (getNode mt dbn).
Proof. intros w o w' H. apply getNode_frame in H. apply H. Qed.

Lemma store_addNode mt n : keeps same_store (addNode mt n).
Proof.
  apply keeps_bind; [apply _|apply keeps_readNodes, _|intros m].
  apply keeps_bind; [apply _|apply keeps_getTrie, _|intros; apply store_setDels].
Qed.

Lemma store_delNode mt n : keeps same_store (delNode mt n).
Proof.
  apply keeps_bind; [apply _|apply keeps_readNodes, _|intros m].
  destruct (getDBKey n m); [|apply keeps_ret, _].
  apply keeps_bind; [apply _|apply keeps_getTrie, _|intros; apply store_setDels].
Qed.

Lemma store_run {R} mt (p : Descent node NodeMem R) : keeps same_store (run mt p).
Proof.
  induction p as [r|pv|upd k IH|dbn k IH|n k IH|n k IH]; simpl.
  - apply keeps_ret, _.
  - apply keeps_panic, _.
  - apply keeps_bind; [apply _|apply store_withNodes|exact IH].
  - apply keeps_bind; [apply _|apply store_getNode|intros; apply IH].
  - apply keeps_bind; [apply _|apply store_addNode|intros; apply IH].
  - apply keeps_bind; [apply _|apply store_delNode|intros; apply IH].
Qed.

Lemma store_Add mt key value : keeps same_store (Add mt key value).
Proof.
  unfold Add. destruct (_ =? 0); [apply keeps_ret, _|].
  destruct (_ >? _); [apply keeps_ret, _|].
  apply keeps_bind; [apply _|apply keeps_getTrie, _|intros t].
  destruct (root t).
  - apply keeps_bind; [apply _|apply store_run|intros res].
    destruct res.2; [apply keeps_ret, _|].
    apply keeps_bind; [apply _|apply store_setRoot|intros; apply keeps_ret, _].
  - apply keeps_bind; [apply _|apply store_withNodes|intros n].
    apply keeps_bind; [apply _|apply store_setRoot|intros].
    apply keeps_bind; [apply _|apply store_addNode|intros; apply keeps_ret, _].
Qed.

Lemma store_Delete mt key : keeps same_store (Delete mt key).
Proof.
  unfold Delete. destruct (_ =? 0); [apply keeps_ret, _|].
  destruct (_ >? _); [apply keeps_ret, _|].
  apply keeps_bind; [apply _|apply keeps_getTrie, _|intros t].
  destruct (root t); [|apply keeps_ret, _].
  apply keeps_bind; [apply _|apply store_run|intros [[replacement found] err]].
  destruct err; [apply keeps_ret, _|].
  destruct found; [|apply keeps_ret, _].
  apply keeps_bind; [apply _|apply store_setRoot|intros; apply keeps_ret, _].
Qed.

Lemma store_SetRoot mt digest : keeps same_store (SetRoot mt digest).
Proof.
  apply keeps_bind; [apply _|apply store_withNodes|intros; apply store_setRoot].
Qed.

Lemma store_RootHash mt : keeps same_store (RootHash mt).
Proof.
  apply keeps_bind; [apply _|apply keeps_getTrie, _|intros t].
  destruct (root t) as [r|]; [|apply keeps_ret, _].
  apply keeps_bind; [apply _|apply keeps_readNodes, _|intros m].
  destruct (getHash r m); [apply keeps_ret, _|].
  apply keeps_bind; [apply _|apply store_withNodes|intros err].
  destruct err; [apply keeps_ret, _|].
  apply keeps_bind; [apply _|apply keeps_readNodes, _|intros m'].
  destruct (getHash r m'); [apply keeps_ret, _|apply keeps_panic, _].
Qed.

Lemma store_merge mt : keeps same_store (merge mt).
Proof.
  apply keeps_bind; [apply _|apply keeps_getTrie, _|intros t].
  destruct (parent t); [|apply keeps_ret, _].
  apply keeps_bind; [apply _|apply store_setRoot|intros].
  apply keeps_bind; [apply _|apply keeps_getTrie, _|intros pt].
  apply keeps_bind; [apply _|apply store_setDels|intros; apply keeps_ret, _].
Qed.

Lemma store_child mt : keeps same_store (child mt).
Proof.
  apply keeps_bind; [apply _|apply keeps_getTrie, _|intros t].
  intros w o w' H. cbv zeta in H. inversion H. reflexivity.
Qed.

(** X1. Only [Commit] writes to the store: whatever way [Add],
    [Delete], [SetRoot], [RootHash], [getNode], [child] and [merge] end,
    by a return or by a panic, every store is afterwards exactly as it
    was; the read handle [getNode] obtains is released. *)
Theorem only_Commit_writes mt key value digest dbn w :
  dbs (Add mt key value w).2 = dbs w /\
  dbs (Delete mt key w).2 = dbs w /\
  dbs (SetRoot mt digest w).2 = dbs w /\
  dbs (RootHash mt w).2 = dbs w /\
  dbs (getNode mt dbn w).2 = dbs w /\
  dbs (child mt w).2 = dbs w /\
  dbs (merge mt w).2 = dbs w.
Proof.
  repeat split.
  - eapply store_Add. apply surjective_pairing.
  - eapply store_Delete. apply surjective_pairing.
  - eapply store_SetRoot. apply surjective_pairing.
  - eapply store_RootHash. apply surjective_pairing.
  - eapply store_getNode. apply surjective_pairing.
  - eapply store_child. apply surjective_pairing.
  - eapply store_merge. apply surjective_pairing.
Qed.


Lemma World_eta (w : World) : mkWorld (tries w) (nodes w) (dbs w) = w.
Proof. destruct w. reflexivity. Qed.

Lemma Trie_eta (t : Trie) : mkTrie (db t) (parent t) (root t) (dels t) = t.
Proof. destruct t. reflexivity. Qed.

Lemma RootHash_missing mt w :
  tries w !! mt = None -> RootHash mt w = (Panicked PanicNilDeref, w).
Proof. intros H. unfold RootHash, getTrie, bind. now rewrite H. Qed.

(** X2. [RootHash] changes no manager; once it has returned a digest
    without error, calling it again returns the same digest and changes
    nothing at all; and when it returns an error, the error comes from
    [descendHash] and the digest returned with it is the zero digest. *)
Theorem RootHash_stable mt w :
  tries (RootHash mt w).2 = tries w /\
  (forall digest w1,
      RootHash mt w = (Done (digest, None), w1) ->
      RootHash mt w1 = (Done (digest, None), w1)) /\
  (forall digest e w1,
      RootHash mt w = (Done (digest, Some e), w1) ->
      digest = zeroDigest /\ exists c, e = ErrNode c).
Proof.
  destruct (tries w !! mt) as [t|] eqn:Ht.
  2:{ rewrite (RootHash_missing _ _ Ht). repeat split; intros; discriminate. }
  rewrite (RootHash_at _ _ _ Ht).
  destruct (root t) as [r|] eqn:Hr.
  2:{ repeat split; intros; simplify_eq.
      rewrite (RootHash_at _ _ _ Ht), Hr. reflexivity. }
  destruct (getHash r (nodes w)) as [h|] eqn:Hg.
  { repeat split; intros; simplify_eq.
    rewrite (RootHash_at _ _ _ Ht), Hr, Hg. reflexivity. }
  destruct (descendHash r (nodes w)) as [[c|] m] eqn:Hd.
  { repeat split; intros; simplify_eq; eauto. }
  destruct (getHash r m) as [h|] eqn:Hg'; repeat split; intros; simplify_eq.
  rewrite (RootHash_at _ _ t) by exact Ht. simpl. now rewrite Hr, Hg'.
Qed.

(** X3. [getNode] changes no manager and no store, however it ends;
    the error it returns is always nil (its failures are panics); and
    for a node without database key it returns "absent" and touches
    nothing. *)
Theorem getNode_reads_only mt dbn w :
  tries (getNode mt dbn w).2 = tries w /\
  dbs (getNode mt dbn w).2 = dbs w /\
  (forall n e, (getNode mt dbn w).1 = Done (n, e) -> e = None) /\
  (getDBKey dbn (nodes w) = None -> getNode mt dbn w = (Done (None, None), w)).
Proof.
  destruct (getNode_frame mt dbn w _ _ (surjective_pairing _)) as [Ht Hd].
  split; [exact Ht|]. split; [exact Hd|]. split.
  - intros n e.
    unfold getNode, readNodes, getTrie, getDB, putDB, withNodes, panic, bind, ret.
    repeat (case_match; simplify_eq/=); intros; simplify_eq; reflexivity.
  - intros Hk. unfold getNode, readNodes, bind, ret. now rewrite Hk.
Qed.

(** *** Scheduling and unscheduling keys *)

Lemma delNode_run mt n w t k :
  tries w !! mt = Some t -> getDBKey n (nodes w) = Some k ->
  delNode mt n w =
    (Done tt,
     mkWorld (<[mt := mkTrie (db t) (parent t) (root t) (<[k := n]> (dels t))]> (tries w))
             (nodes w) (dbs w)).
Proof.
  intros Ht Hk. unfold delNode, setDels, readNodes, getTrie, putTrie, bind.
  simpl. rewrite Hk. simpl. rewrite Ht. simpl. rewrite Ht. reflexivity.
Qed.

Lemma addNode_run mt n w t :
  tries w !! mt = Some t ->
  addNode mt n w =
    (Done tt,
     mkWorld (<[mt := mkTrie (db t) (parent t) (root t)
                             (delete (getKey n (nodes w)) (dels t))]> (tries w))
             (nodes w) (dbs w)).
Proof.
  intros Ht. unfold addNode, setDels, readNodes, getTrie, putTrie, bind.
  simpl. rewrite Ht. simpl. rewrite Ht. reflexivity.
Qed.

Lemma getNode_pending mt dbn w t k :
  tries w !! mt = Some t -> getDBKey dbn (nodes w) = Some k ->
  is_Some (dels t !! k) ->
  getNode mt dbn w = (Done (None, None), w).
Proof.
  intros Ht Hk [v Hv].
  unfold getNode, readNodes, getTrie, bind, ret.
  simpl. rewrite Hk. simpl. rewrite Ht. simpl. now rewrite Hv.
Qed.

(** X4. After [delNode] of a node with database key [k], [getNode] of
    any placeholder with the database key [k] returns "absent" and
    touches nothing; [delNode] changes no other manager. *)
Theorem delNode_hides_key mt n dbn w t k :
  tries w !! mt = Some t ->
  getDBKey n (nodes w) = Some k ->
  getDBKey dbn (nodes w) = Some k ->
  exists w1,
    delNode mt n w = (Done tt, w1) /\
    getNode mt dbn w1 = (Done (None, None), w1) /\
    forall x, x <> mt -> tries w1 !! x = tries w !! x.
Proof.
  intros Ht Hn Hdbn. eexists. split; [apply (delNode_run _ _ _ _ _ Ht Hn)|].
  split.
  - eapply getNode_pending; [apply lookup_insert_eq|exact Hdbn|].
    simpl. rewrite lookup_insert_eq. eauto.
  - intros x Hx. simpl. now rewrite lookup_insert_ne.
Qed.

(** X5. [delNode] of a node without database key does nothing.
    [addNode] of a node whose key path is [k], after [delNode] of a node
    whose database key is [k], leaves [k] unscheduled: the pending
    deletes are those from before without [k], and when [k] was not
    pending before, everything is as it was. *)
Theorem addNode_unschedules mt n1 n2 w t :
  tries w !! mt = Some t ->
  (getDBKey n1 (nodes w) = None -> delNode mt n1 w = (Done tt, w)) /\
  (forall k,
      getDBKey n1 (nodes w) = Some k -> getKey n2 (nodes w) = k ->
      exists w',
        (delNode mt n1 ;;; addNode mt n2) w = (Done tt, w') /\
        tries w' = <[mt := mkTrie (db t) (parent t) (root t) (delete k (dels t))]> (tries w) /\
        nodes w' = nodes w /\ dbs w' = dbs w /\
        (dels t !! k = None -> w' = w)).
Proof.
  intros Ht. split.
  - intros Hk. unfold delNode, readNodes, bind, ret. now rewrite Hk.
  - intros k Hk1 Hk2. eexists. split.
    + unfold bind at 1. rewrite (delNode_run _ _ _ _ _ Ht Hk1).
      apply addNode_run. simpl. apply lookup_insert_eq.
    + simpl. rewrite insert_insert_eq, Hk2, delete_insert_eq.
      repeat split. intros Hnone.
      rewrite (delete_id _ _ Hnone), Trie_eta, (insert_id _ _ _ Ht).
      apply World_eta.
Qed.


(** *** [Add] and [Delete] on a manager without root *)

(** X6. [Add] on a manager without root, with a key of a length from
    1 to 65535, returns no error: the root is the leaf made by
    [makeLeafNode] for the whole key and the hash of the value at the
    empty path, the key path of that leaf is taken out of the pending
    deletes, and the store is not touched. *)
Theorem Add_first_key mt key value w t :
  tries w !! mt = Some t -> root t = None ->
  length key <> O -> Z.of_nat (length key) <= 65535 ->
  Add mt key value w =
    (Done None,
     mkWorld
       (<[mt := mkTrie (db t) (parent t)
                  (Some (makeLeafNode key (Hash value) [] (nodes w)).1)
                  (delete (getKey (makeLeafNode key (Hash value) [] (nodes w)).1
                                  (makeLeafNode key (Hash value) [] (nodes w)).2)
                          (dels t))]> (tries w))
       (makeLeafNode key (Hash value) [] (nodes w)).2
       (dbs w)).
Proof.
  intros Ht Hr Hlen Hmax. unfold Add.
  destruct (Z.of_nat (length key) =? 0) eqn:H0; [apply Z.eqb_eq in H0; lia|].
  destruct (Z.of_nat (length key) >? MaxKeyLength) eqn:H1.
  { unfold MaxKeyLength in H1. rewrite Z.gtb_ltb, Z.ltb_lt in H1. lia. }
  unfold bind at 1. rewrite (getTrie_at _ _ _ Ht), Hr.
  unfold bind at 1. unfold withNodes.
  destruct (makeLeafNode key (Hash value) [] (nodes w)) as [n m'] eqn:Hmk.
  unfold bind at 1. unfold setRoot, bind at 1.
  unfold getTrie at 1. simpl. rewrite Ht. unfold putTrie at 1. simpl.
  unfold bind.
  erewrite addNode_run by (simpl; apply lookup_insert_eq).
  unfold ret. simpl. rewrite insert_insert_eq. reflexivity.
Qed.

Lemma Delete_notfound_roots mt key w e w' :
  Delete mt key w = (Done (false, e), w') -> roots_kept w w'.
Proof.
  destruct e as [e|]; [apply Delete_error_roots|].
  unfold Delete. destruct (_ =? 0); [unfold ret; intros; simplify_eq|].
  destruct (_ >? _); [unfold ret; intros; simplify_eq|].
  intros H. apply bind_Done in H as (t & w0 & Ht & H).
  apply getTrie_Done in Ht as [-> Ht].
  destruct (root t) as [r|].
  - apply bind_Done in H as ([[replacement fnd] err] & w1 & Hrun & H).
    destruct err as [c|]; [unfold ret in H; simplify_eq|].
    destruct fnd.
    + apply bind_Done in H as (? & ? & _ & H). unfold ret in H. simplify_eq.
    + unfold ret in H. simplify_eq. eapply run_roots. exact Hrun.
  - unfold ret in H. simplify_eq. apply roots_kept_refl.
Qed.

(** X7. [Delete] on a manager without root, with a key of a length
    from 1 to 65535, returns (false, nil) and changes nothing; and a
    [Delete] that returns found = false, with or without error, leaves
    the root field of every manager as it was. *)
Theorem Delete_not_found mt key w :
  (forall t, tries w !! mt = Some t -> root t = None ->
     length key <> O -> Z.of_nat (length key) <= 65535 ->
     Delete mt key w = (Done (false, None), w)) /\
  (forall e w',
     Delete mt key w = (Done (false, e), w') ->
     forall x, root <$> tries w' !! x = root <$> tries w !! x).
Proof.
  split.
  - intros t Ht Hr Hlen Hmax. unfold Delete.
    destruct (Z.of_nat (length key) =? 0) eqn:H0; [apply Z.eqb_eq in H0; lia|].
    destruct (Z.of_nat (length key) >? MaxKeyLength) eqn:H1.
    { unfold MaxKeyLength in H1. rewrite Z.gtb_ltb, Z.ltb_lt in H1. lia. }
    unfold bind. now rewrite (getTrie_at _ _ _ Ht), Hr.
  - intros e w' H. apply (Delete_notfound_roots _ _ _ _ _ H).
Qed.

(** *** More on nested managers *)

(** X8. [merge] on a manager without parent returns nil and changes
    nothing; and [merge] is idempotent: after a [merge] that returned,
    a second one returns nil and changes nothing. *)
Theorem merge_idempotent mt w :
  (forall t, tries w !! mt = Some t -> parent t = None ->
     merge mt w = (Done None, w)) /\
  (forall r w1, merge mt w = (Done r, w1) -> merge mt w1 = (Done None, w1)).
Proof.
  split.
  - intros t Ht Hp. unfold merge, bind. now rewrite (getTrie_at _ _ _ Ht), Hp.
  - intros r w1 H. apply merge_Done in H as (t & Ht & _ & Hn & Hd & H).
    destruct (parent t) as [p|] eqn:Hp.
    + destruct H as (pt & Hpt & Hts).
      assert (exists t1, tries w1 !! mt = Some t1 /\ parent t1 = Some p /\
                         root t1 = root t /\ dels t1 ∪ (dels t ∪ dels pt) = dels t ∪ dels pt)
        as (t1 & Ht1 & Hp1 & Hr1 & Hd1).
      { rewrite Hts. destruct (decide (p = mt)) as [->|Hne].
        - rewrite lookup_insert_eq. eexists. split; [reflexivity|]. simpl.
          assert (pt = t) as -> by congruence.
          repeat split; [exact Hp|].
          apply (idemp_L (∪)).
        - rewrite lookup_insert_ne by exact Hne. exists t.
          repeat split; try assumption.
          now rewrite (assoc_L (∪)), (idemp_L (∪) (dels t)). }
      rewrite (merge_run mt w1 t1 p
                 (mkTrie (db pt) (parent pt) (root t) (dels t ∪ dels pt)) Ht1 Hp1)
        by (rewrite Hts; apply lookup_insert_eq).
      simpl. rewrite Hr1, Hd1. f_equal.
      assert (tries w1 !! p =
                Some (mkTrie (db pt) (parent pt) (root t) (dels t ∪ dels pt))) as Hp1'
        by (rewrite Hts; apply lookup_insert_eq).
      rewrite (insert_id _ _ _ Hp1'). apply World_eta.
    + assert (w1 = w) as ->.
      { destruct w, w1; simpl in *; congruence. }
      unfold merge, bind. now rewrite (getTrie_at _ _ _ Ht), Hp.
Qed.

Lemma child_run mt w t :
  tries w !! mt = Some t ->
  child mt w =
    (Done (fresh (dom (tries w))),
     mkWorld (<[fresh (dom (tries w)) := mkTrie None (Some mt) (root t) ∅]> (tries w))
             (nodes w) (dbs w)).
Proof. intros Ht. unfold child, bind. now rewrite (getTrie_at _ _ _ Ht). Qed.

Lemma child_fresh mt w t : tries w !! mt = Some t -> fresh (dom (tries w)) <> mt.
Proof.
  intros Ht Heq. apply (is_fresh (dom (tries w))). rewrite Heq.
  apply elem_of_dom. eauto.
Qed.

(** X9. Merging a manager just made by [child] changes nothing, so
    [Commit] on it is [Commit] on its parent; and [child] leaves the
    managers that existed as they were. *)
Theorem child_merge_noop mt w ch w1 :
  child mt w = (Done ch, w1) ->
  merge ch w1 = (Done None, w1) /\
  (forall fuel, Commit (S fuel) ch w1 = Commit fuel mt w1) /\
  (forall x, x <> ch -> tries w1 !! x = tries w !! x).
Proof.
  intros H.
  assert (exists t, tries w !! mt = Some t) as [t Ht].
  { unfold child in H. apply bind_Done in H as (t & w0 & Ht & _).
    apply getTrie_Done in Ht as [_ Ht]. eauto. }
  rewrite (child_run _ _ _ Ht) in H. simplify_eq.
  pose proof (child_fresh _ _ _ Ht) as Hne.
  set (ch := fresh (dom (tries w))) in *.
  set (w1 := mkWorld _ _ _).
  assert (tries w1 !! ch = Some (mkTrie None (Some mt) (root t) ∅)) as Hch
    by apply lookup_insert_eq.
  assert (tries w1 !! mt = Some t) as Hmt
    by (unfold w1; simpl; now rewrite lookup_insert_ne).
  assert (merge ch w1 = (Done None, w1)) as Hmerge.
  { rewrite (merge_run ch w1 _ mt t Hch eq_refl Hmt). simpl.
    rewrite (left_id_L ∅ (∪)). f_equal.
    replace (mkTrie (db t) (parent t) (root t) (dels t)) with t
      by (symmetry; apply Trie_eta).
    rewrite (insert_id _ _ _ Hmt). reflexivity. }
  split; [exact Hmerge|]. split.
  - intros fuel. simpl. unfold bind at 1.
    rewrite (getTrie_at _ _ _ Hch). simpl. unfold bind. now rewrite Hmerge.
  - intros x Hx. unfold w1. simpl. now rewrite lookup_insert_ne.
Qed.

(** X10. A manager made by [child] has a nil store and nothing
    pending: [getNode] on it, for any node with a database key, panics
    on the nil store. *)
Theorem child_cannot_load mt w ch w1 dbn k :
  child mt w = (Done ch, w1) ->
  getDBKey dbn (nodes w1) = Some k ->
  getNode ch dbn w1 = (Panicked PanicNilDeref, w1).
Proof.
  intros H Hk.
  assert (exists t, tries w !! mt = Some t) as [t Ht].
  { unfold child in H. apply bind_Done in H as (t & w0 & Ht & _).
    apply getTrie_Done in Ht as [_ Ht]. eauto. }
  rewrite (child_run _ _ _ Ht) in H. simplify_eq.
  unfold getNode, readNodes, getTrie, getDB, bind. simpl in *.
  rewrite Hk. simpl. rewrite lookup_insert_eq. simpl.
  rewrite lookup_empty. reflexivity.
Qed.


(** *** More on [Commit] *)

Lemma Commit_step fuel mt :
  Commit (S fuel) mt =
    (t <- getTrie mt ;;
     match parent t with
     | Some p => merge mt ;;; Commit fuel p
     | None => commitHere mt t
     end).
Proof. reflexivity. Qed.

Lemma Commit_top fuel mt w t :
  tries w !! mt = Some t -> parent t = None ->
  Commit (S fuel) mt w = commitHere mt t w.
Proof.
  intros Ht Hp. rewrite Commit_step. unfold bind.
  now rewrite (getTrie_at _ _ _ Ht), Hp.
Qed.

Lemma Commit_fuel_mono fuel : forall mt w,
  (Commit fuel mt w).1 <> OutOfFuel ->
  Commit (S fuel) mt w = Commit fuel mt w.
Proof.
  induction fuel as [|fuel IH]; intros mt w H; [now simpl in H|].
  rewrite (Commit_step (S fuel)), (Commit_step fuel) in *.
  unfold bind at 1 3. unfold bind at 1 in H.
  destruct (getTrie mt w) as [[t| |] w0]; try reflexivity.
  destruct (parent t) as [p|]; [|reflexivity].
  unfold bind in *.
  destruct (merge mt w0) as [[r| |] w1]; try reflexivity.
  apply IH. exact H.
Qed.

(** X11. When the parent links from a manager reach a manager without
    parent in [d] steps, [Commit] ends (by a return or a panic) after
    visiting [d + 1] managers: any larger bound gives the same result
    and the same world. *)
Theorem Commit_terminates mt w top d :
  chain (tries w) mt top d ->
  forall fuel, (d < fuel)%nat ->
    (Commit fuel mt w).1 <> OutOfFuel /\
    Commit fuel mt w = Commit (S d) mt w.
Proof.
  intros Hc fuel Hlt.
  split; [eapply Commit_enough_fuel; eassumption|].
  induction fuel as [|fuel IH]; [lia|].
  destruct (decide (fuel = d)) as [->|Hne]; [reflexivity|].
  rewrite Commit_fuel_mono.
  - apply IH. lia.
  - eapply Commit_enough_fuel; [exact Hc|lia].
Qed.

(** X12. After [Commit] has returned on a manager without parent, the
    batch it obtained is still open exactly when it returned an
    error. *)
Theorem Commit_closes_batch_on_success_only fuel mt w t r w' :
  tries w !! mt = Some t -> parent t = None ->
  Commit fuel mt w = (Done r, w') ->
  exists l d d',
    db t = Some l /\ dbs w !! l = Some d /\ dbs w' !! l = Some d' /\
    (nextBatch d ∈ openBatches d' <-> r <> None).
Proof.
  intros Ht Hp H.
  destruct fuel as [|fuel]; [discriminate|].
  rewrite (Commit_top _ _ _ _ Ht Hp) in H.
  destruct r as [e|].
  - apply commitHere_error_leaves_batch in H as (l & d & d' & ? & ? & ? & ?).
    exists l, d, d'. repeat split; try assumption; done.
  - apply (commitHere_success _ _ _ _ Ht) in H
      as (l & d & ops & Hdb & Hd & _ & _ & Hdbs).
    exists l, d. eexists. split; [exact Hdb|]. split; [exact Hd|].
    split; [rewrite Hdbs; apply lookup_insert_eq|].
    simpl. split; [|congruence].
    intros Hin. apply elem_of_difference in Hin as [_ Hn].
    exfalso. apply Hn. now apply elem_of_singleton.
Qed.

Lemma foldl_deletes_other (ks : list (list Z)) : forall (m : gmap (list Z) (list Z)) k,
  k ∉ ks -> foldl applyOp m (map BatchDelete ks) !! k = m !! k.
Proof.
  induction ks as [|k0 ks IH]; intros m k Hk; simpl; [reflexivity|].
  apply not_elem_of_cons in Hk as [Hne Hk].
  rewrite IH by exact Hk. now apply lookup_delete_ne.
Qed.

Lemma pendingKeys_elem_inv (t : Trie) k : k ∈ pendingKeys t -> is_Some (dels t !! k).
Proof.
  unfold pendingKeys. change (k ∈ fst <$> map_to_list (dels t) -> is_Some (dels t !! k)).
  intros H. apply list_elem_of_fmap in H as ([k' v] & -> & Hin).
  apply elem_of_map_to_list in Hin. simpl. eauto.
Qed.

(** X13. What a successful [Commit] on a manager without parent
    leaves in its store: the writes [descendHashWithCommit] put in the
    batch (none without root) applied to the old contents, and then
    every pending key removed; other stores are not touched. *)
Theorem Commit_store_contents fuel mt w t w' :
  tries w !! mt = Some t -> parent t = None ->
  Commit fuel mt w = (Done None, w') ->
  exists l d d' ops,
    db t = Some l /\ dbs w !! l = Some d /\ dbs w' !! l = Some d' /\
    match root t with
    | Some r => descendHashWithCommit r [] (nodes w) = ((ops, None), nodes w')
    | None => ops = [] /\ nodes w' = nodes w
    end /\
    (forall k, is_Some (dels t !! k) -> kv d' !! k = None) /\
    (forall k, dels t !! k = None -> kv d' !! k = foldl applyOp (kv d) ops !! k) /\
    (forall x, x <> l -> dbs w' !! x = dbs w !! x).
Proof.
  intros Ht Hp H.
  destruct fuel as [|fuel]; [discriminate|].
  rewrite (Commit_top _ _ _ _ Ht Hp) in H.
  apply (commitHere_success _ _ _ _ Ht) in H
    as (l & d & ops & Hdb & Hd & Hh & _ & Hdbs).
  exists l, d. eexists. exists ops.
  split; [exact Hdb|]. split; [exact Hd|].
  split; [rewrite Hdbs; apply lookup_insert_eq|].
  split; [exact Hh|]. simpl. rewrite foldl_app. repeat split.
  - intros k Hk. apply foldl_deletes, pendingKeys_elem, Hk.
  - intros k Hk. apply foldl_deletes_other. intros Hin.
    apply pendingKeys_elem_inv in Hin as [v Hv]. congruence.
  - intros x Hx. rewrite Hdbs. now apply lookup_insert_ne.
Qed.

(** X14. When [Commit] on a manager without parent returns an error,
    the contents of its store are unchanged, unless the error is that of
    [b.Close()]: then [Apply] had succeeded. *)
Theorem Commit_error_and_store fuel mt w t e w' :
  tries w !! mt = Some t -> parent t = None ->
  Commit fuel mt w = (Done (Some e), w') ->
  exists l d d',
    db t = Some l /\ dbs w !! l = Some d /\ dbs w' !! l = Some d' /\
    (kv d' = kv d \/
     exists c, failApply (faults d) = None /\ failClose (faults d) = Some c /\
               e = ErrPebble c).
Proof.
  intros Ht Hp H.
  destruct fuel as [|fuel]; [discriminate|].
  rewrite (Commit_top _ _ _ _ Ht Hp) in H. revert H.
  unfold commitHere, setDels, getDB, putDB, withNodes, getTrie, putTrie,
    Apply, batchClose, NewBatch, bind, ret.
  intros H.
  destruct (db t) as [l|] eqn:Hdb; simpl in H; [|discriminate].
  destruct (dbs w !! l) as [d|] eqn:Hd; simpl in H; [|discriminate].
  exists l, d.
  enough (exists d', dbs w' !! l = Some d' /\
            (kv d' = kv d \/
             exists c, failApply (faults d) = None /\ failClose (faults d) = Some c /\
                       e = ErrPebble c))
    as (d' & ? & ?) by (exists d'; auto).
  clear Hd Hdb.
  repeat (case_match; simplify_eq/=);
    eexists; (split; [apply lookup_insert_eq|]); simpl; eauto.
Qed.

Lemma Commit_success_top fuel : forall mt w w' t,
  Commit fuel mt w = (Done None, w') ->
  tries w !! mt = Some t ->
  exists top d ttop,
    chain (tries w) mt top d /\ tries w !! top = Some ttop /\
    tries w' !! top = Some (mkTrie (db ttop) None (root t) ∅).
Proof.
  induction fuel as [|fuel IH]; intros mt w w' t H Ht; [discriminate|].
  destruct (parent t) as [p|] eqn:Hp.
  - rewrite Commit_step in H.
    apply bind_Done in H as (t0 & w0 & Ht0 & H).
    apply getTrie_Done in Ht0 as [-> Ht0].
    assert (t0 = t) as -> by congruence. clear Ht0. rewrite Hp in H.
    apply bind_Done in H as (r1 & w1 & Hm & H).
    pose proof (merge_same_links _ _ _ _ Hm) as Hl.
    apply merge_Done in Hm as (t1 & Ht1 & _ & _ & _ & Hts).
    assert (t1 = t) as -> by congruence. clear Ht1.
    rewrite Hp in Hts. destruct Hts as (pt & Hpt & Hts).
    destruct (IH p w1 w' _ H ltac:(rewrite Hts; apply lookup_insert_eq))
      as (top & d & ttop1 & Hc & Htop1 & Hfin).
    simpl in Hfin.
    assert (exists ttop, tries w !! top = Some ttop /\ db ttop = db ttop1)
      as (ttop & Htop & Hdbeq).
    { rewrite Hts in Htop1. destruct (decide (p = top)) as [->|Hne].
      - rewrite lookup_insert_eq in Htop1. simplify_eq. eauto.
      - rewrite lookup_insert_ne in Htop1 by exact Hne. eauto. }
    exists top, (S d), ttop. split; [|split; [exact Htop|]].
    + eapply chain_step; [exact Ht|exact Hp|].
      eapply chain_same_links; [apply same_links_sym; exact Hl|exact Hc].
    + now rewrite Hdbeq.
  - rewrite (Commit_top _ _ _ _ Ht Hp) in H.
    apply (commitHere_success _ _ _ _ Ht) in H as (l & d & ops & _ & _ & _ & Hts & _).
    exists mt, O, t. split; [eapply chain_top; eassumption|]. split; [exact Ht|].
    rewrite Hts, Hp. apply lookup_insert_eq.
Qed.

(** X15. A successful [Commit] on a nested manager leaves that
    manager as it was, its pending deletes included; the manager at the
    top of its chain, another one, ends with the root of the nested
    manager and nothing pending. *)
Theorem nested_Commit_clears_top_only fuel mt w t p w' :
  tries w !! mt = Some t -> parent t = Some p ->
  Commit fuel mt w = (Done None, w') ->
  tries w' !! mt = Some t /\
  exists top d ttop,
    top <> mt /\ chain (tries w) mt top d /\ tries w !! top = Some ttop /\
    tries w' !! top = Some (mkTrie (db ttop) None (root t) ∅).
Proof.
  intros Ht Hp H.
  assert (tries w' !! mt = Some t) as Hkeep.
  { rewrite (Commit_nested_untouched _ _ _ _ _ _ _ Ht Hp H). exact Ht. }
  split; [exact Hkeep|].
  destruct (Commit_success_top _ _ _ _ _ H Ht) as (top & d & ttop & Hc & Htop & Hfin).
  exists top, d, ttop. repeat split; try assumption.
  intros ->. rewrite Hkeep in Hfin. injection Hfin as Hfin.
  rewrite Hfin in Hp. simpl in Hp. discriminate.
Qed.

End MoreManagerProofs.

(** ** The manager: failed descents

    [Add] and [Delete] have no way back from a descent that fails: they
    keep no copy of the pending deletes or of node memory, and only
    leave the root field alone.  What a failed call can have changed is
    therefore what the descent has changed on the way: the pending
    deletes of its own manager, through [addNode] and [delNode], and
    node memory. *)

Section FailedDescents.
Context {NO : NodeOps}.











End FailedDescents.

(** ** Nibble packing: more proofs *)

Lemma packed_byte_value hi lo :
  0 <= hi <= 15 -> 0 <= lo <= 15 ->
  Z.lor (Z.shiftl hi 4) lo = 16 * hi + lo.
Proof.
  intros Hh Hl.
  pose proof (high_half_back hi lo Hh Hl) as H1.
  pose proof (low_half_back hi lo Hh Hl) as H2.
  set (x := Z.lor (Z.shiftl hi 4) lo) in *.
  rewrite Z.shiftr_div_pow2 in H1 by lia.
  change 15 with (Z.ones 4) in H2. rewrite Z.land_ones in H2 by lia.
  change (2 ^ 4) with 16 in *.
  rewrite (Z.div_mod x 16) by lia. lia.
Qed.

Lemma byte_halves b :
  0 <= b <= 255 ->
  0 <= Z.shiftr b 4 <= 15 /\ 0 <= Z.land b 15 <= 15 /\
  Z.lor (Z.shiftl (Z.shiftr b 4) 4) (Z.land b 15) = b.
Proof.
  intros Hb.
  assert (0 <= Z.shiftr b 4 <= 15) as Hh.
  { rewrite Z.shiftr_div_pow2 by lia. change (2 ^ 4) with 16.
    split; [apply Z.div_pos; lia|].
    apply Z.lt_succ_r. apply Z.div_lt_upper_bound; lia. }
  assert (0 <= Z.land b 15 <= 15) as Hl.
  { change 15 with (Z.ones 4) at 1 2. rewrite Z.land_ones by lia.
    change (2 ^ 4) with 16. pose proof (Z.mod_pos_bound b 16). lia. }
  split; [exact Hh|]. split; [exact Hl|].
  rewrite packed_byte_value by assumption.
  rewrite Z.shiftr_div_pow2 by lia.
  change 15 with (Z.ones 4). rewrite Z.land_ones by lia.
  change (2 ^ 4) with 16. symmetry. apply Z.div_mod. lia.
Qed.

Lemma pack_shape_bounded (k : nat) :
  forall n : list Z,
    (length n <= k)%nat ->
    Forall (fun x => 0 <= x <= 15) n ->
    exists bs,
      pack n = Some (bs, Nat.odd (length n)) /\
      length bs = Nat.div2 (S (length n)) /\
      Forall (fun b => 0 <= b <= 255) bs /\
      (Nat.odd (length n) = true ->
       exists b, last bs = Some b /\ Z.land b 15 = 0).
Proof.
  induction k as [|k IH]; intros n Hlen Hn.
  - destruct n; [|simpl in Hlen; lia].
    exists []. repeat split; [constructor|discriminate].
  - destruct n as [|hi [|lo rest]].
    + exists []. repeat split; [constructor|discriminate].
    + inversion Hn as [|? ? Hhi _]; subst.
      exists [Z.shiftl hi 4]. simpl.
      rewrite (proj2 (isNibble_spec hi) Hhi).
      repeat split.
      * constructor; [|constructor].
        rewrite Z.shiftl_mul_pow2 by lia. change (2 ^ 4) with 16. lia.
      * intros _. exists (Z.shiftl hi 4). split; [reflexivity|apply low_half_clear].
    + inversion Hn as [|? ? Hhi Hn']; subst.
      inversion Hn' as [|? ? Hlo Hrest]; subst.
      destruct (IH rest) as (bs & Hp & Hl & Hb & Hlast);
        [simpl in Hlen; lia | exact Hrest |].
      exists (Z.lor (Z.shiftl hi 4) lo :: bs).
      cbn [pack].
      rewrite (proj2 (isNibble_spec hi) Hhi), (proj2 (isNibble_spec lo) Hlo), Hp.
      cbn [andb length]. rewrite Nat.odd_succ_succ.
      repeat split.
      * simpl. simpl in Hl. now rewrite Hl.
      * constructor; [|exact Hb]. rewrite packed_byte_value by assumption. lia.
      * intros Hodd. destruct (Hlast Hodd) as (b & Hb1 & Hb2).
        exists b. split; [|exact Hb2].
        destruct bs as [|b0 bs']; [discriminate|]. exact Hb1.
Qed.

(** X16. What the nibble tests require of [pack] for every sample
    holds for every path of nibbles: the flag tells an odd length, there
    is one byte (0..255) per two nibbles, and with the flag set the low
    half of the last byte is zero. *)
Theorem pack_shape (n : list Z) :
  Forall (fun x => 0 <= x <= 15) n ->
  exists bs,
    pack n = Some (bs, Nat.odd (length n)) /\
    length bs = Nat.div2 (S (length n)) /\
    Forall (fun b => 0 <= b <= 255) bs /\
    (Nat.odd (length n) = true -> exists b, last bs = Some b /\ Z.land b 15 = 0).
Proof. intros Hn. exact (pack_shape_bounded (length n) n (le_n _) Hn). Qed.

Lemma pack_refuses_bounded (k : nat) :
  forall n : list Z,
    (length n <= k)%nat ->
    Exists (fun x => ~ 0 <= x <= 15) n -> pack n = None.
Proof.
  induction k as [|k IH]; intros n Hlen Hex.
  - destruct n; [inversion Hex|simpl in Hlen; lia].
  - destruct n as [|hi [|lo rest]]; [inversion Hex| |].
    + inversion Hex as [? ? Hbad|? ? Hbad]; subst; [|inversion Hbad].
      simpl. destruct (isNibble hi) eqn:E; [|reflexivity].
      apply isNibble_spec in E. contradiction.
    + cbn [pack].
      destruct (isNibble hi) eqn:Ehi; [|reflexivity].
      destruct (isNibble lo) eqn:Elo; [|reflexivity].
      apply isNibble_spec in Ehi, Elo. cbn [andb].
      inversion Hex as [? ? Hbad|? ? Hbad]; subst; [contradiction|].
      inversion Hbad as [? ? Hbad'|? ? Hbad']; subst; [contradiction|].
      rewrite (IH rest); [reflexivity|simpl in Hlen; lia|exact Hbad'].
Qed.

(** X17. [pack] fails exactly when some element of the path is not a
    nibble (is outside 0..15). *)
Theorem pack_refuses_exactly (n : list Z) :
  pack n = None <-> Exists (fun x => ~ 0 <= x <= 15) n.
Proof.
  split.
  - intros Hnone.
    destruct (decide (Exists (fun x => ~ 0 <= x <= 15) n)) as [Hex|Hnex];
      [exact Hex|].
    exfalso.
    assert (Forall (fun x => 0 <= x <= 15) n) as Hall.
    { apply Forall_forall. intros x Hx.
      destruct (decide (0 <= x <= 15)) as [?|Hbad]; [assumption|].
      exfalso. apply Hnex. apply Exists_exists. eauto. }
    destruct (pack_shape_bounded (length n) n (le_n _) Hall) as (bs & Hp & _).
    congruence.
  - apply (pack_refuses_bounded (length n)). lia.
Qed.

(** Unpacking then packing gives the bytes and the flag back, for bytes
    (0..255) which, when the flag is set, end with a byte whose low half
    is zero. *)
Theorem unpack_pack_roundtrip (bs : list Z) (half : bool) :
  Forall (fun b => 0 <= b <= 255) bs ->
  (half = true -> exists b, last bs = Some b /\ Z.land b 15 = 0) ->
  exists n, unpack bs half = Some n /\ pack n = Some (bs, half).
Proof.
  intros Hb. induction Hb as [|b rest Hb0 Hrest IH]; intros Hhalf.
  - destruct half.
    + destruct (Hhalf eq_refl) as (b & Hl & _). discriminate.
    + exists []. split; reflexivity.
  - destruct (byte_halves b Hb0) as (Hh & Hl & Hjoin).
    destruct rest as [|b1 rest'].
    + cbn [unpack]. destruct half.
      * destruct (Hhalf eq_refl) as (b' & Hlast & Hz). simpl in Hlast.
        injection Hlast as <-. rewrite Hz. simpl.
        exists [Z.shiftr b 4]. split; [reflexivity|].
        simpl. rewrite (proj2 (isNibble_spec _) Hh).
        rewrite Hz in Hjoin. rewrite Z.lor_0_r in Hjoin. now rewrite Hjoin.
      * exists [Z.shiftr b 4; Z.land b 15]. split; [reflexivity|].
        cbn [pack].
        rewrite (proj2 (isNibble_spec _) Hh), (proj2 (isNibble_spec _) Hl).
        simpl. now rewrite Hjoin.
    + destruct IH as (n & Hu & Hp).
      { intros Hh'. destruct (Hhalf Hh') as (b' & Hlast & Hz).
        exists b'. split; [exact Hlast|exact Hz]. }
      exists (Z.shiftr b 4 :: Z.land b 15 :: n). split.
      * cbn [unpack]. cbn [unpack] in Hu. now rewrite Hu.
      * cbn [pack].
        rewrite (proj2 (isNibble_spec _) Hh), (proj2 (isNibble_spec _) Hl), Hp.
        simpl. now rewrite Hjoin.
Qed.

(** ** The backing stores: proofs *)

Section BackingProofs.
Context {node NodeMem : Type}.
Variable deserializeNode : list Z -> list Z -> NodeMem -> option node * NodeMem.
Variable setHash : node -> list Z -> NodeMem -> NodeMem.

(** X18. The memory store is a map: [get] after [set] of the same key
    deserializes the value just set, [get] after [del] of the key, or
    after [close], finds nothing, [set] and [del] of another key do not
    change what [get] finds, and none of the three ever fails. *)
Theorem memoryBackstore_map_laws
    (mb : Backing.memoryBackstore) (k k' v : list Z) (m : NodeMem) :
  Backing.memoryBackstore_get deserializeNode (Backing.memoryBackstore_set mb k v).1 k m =
    deserializeNode v k m /\
  Backing.memoryBackstore_get deserializeNode (Backing.memoryBackstore_del mb k).1 k m =
    (None, m) /\
  Backing.memoryBackstore_get deserializeNode (Backing.memoryBackstore_close mb).1 k m =
    (None, m) /\
  (k' <> k ->
     Backing.memoryBackstore_get deserializeNode (Backing.memoryBackstore_set mb k v).1 k' m =
       Backing.memoryBackstore_get deserializeNode mb k' m /\
     Backing.memoryBackstore_get deserializeNode (Backing.memoryBackstore_del mb k).1 k' m =
       Backing.memoryBackstore_get deserializeNode mb k' m) /\
  (Backing.memoryBackstore_set mb k v).2 = None /\
  (Backing.memoryBackstore_del mb k).2 = None /\
  (Backing.memoryBackstore_close mb).2 = None.
Proof.
  unfold Backing.memoryBackstore_get. simpl.
  rewrite lookup_insert_eq, lookup_delete_eq, lookup_empty.
  repeat split; intros.
  - now rewrite lookup_insert_ne.
  - now rewrite lookup_delete_ne.
Qed.

(** X19. Loading a backing node.  From a memory store in which its key
    was just set to bytes that deserialize to a node, [get] of the
    backing node returns that node with the hash of the backing node
    set on it; after [del] of its key or after [close], from a new
    memory store, and from the null store (even after a [set]), the
    store finds nothing and [get] panics on the nil node. *)
Theorem backingNode_get_after
    (ba : Backing.backingNode) (mb : Backing.memoryBackstore)
    (v : list Z) (m : NodeMem) :
  (forall n m',
     deserializeNode v (Backing.key ba) m = (Some n, m') ->
     Backing.backingNode_get setHash (B := Backing.memoryBackstore_backing deserializeNode)
       ba (Backing.memoryBackstore_set mb (Backing.key ba) v).1 m =
       (Done n, setHash n (Backing.hash ba) m')) /\
  Backing.backingNode_get setHash (B := Backing.memoryBackstore_backing deserializeNode)
    ba (Backing.memoryBackstore_del mb (Backing.key ba)).1 m =
    (Panicked PanicNilDeref, m) /\
  Backing.backingNode_get setHash (B := Backing.memoryBackstore_backing deserializeNode)
    ba (Backing.memoryBackstore_close mb).1 m =
    (Panicked PanicNilDeref, m) /\
  Backing.backingNode_get setHash (B := Backing.memoryBackstore_backing deserializeNode)
    ba Backing.makeMemoryBackstore m =
    (Panicked PanicNilDeref, m) /\
  Backing.backingNode_get setHash (B := Backing.nullBackstore_backing)
    ba (@Backing.set node NodeMem _ Backing.nullBackstore_backing
          Backing.makeNullBackstore (Backing.key ba) v).1 m =
    (Panicked PanicNilDeref, m).
Proof.
  unfold Backing.backingNode_get. cbn.
  unfold Backing.memoryBackstore_get. cbn.
  rewrite lookup_insert_eq, lookup_delete_eq, lookup_empty.
  repeat split. intros n m' ->. reflexivity.
Qed.

End BackingProofs.

(** ** More runs on the sample implementation *)

Lemma RootHash_stable_witness :
  RootHash 1%nat world2 =
    (Done (digestOf [4; 9], None), (RootHash 1%nat world2).2) /\
  nodes (RootHash 1%nat world2).2 <> nodes world2 /\
  RootHash 1%nat (RootHash 1%nat world2).2 =
    (Done (digestOf [4; 9], None), (RootHash 1%nat world2).2).
Proof.
  assert (RootHash 1%nat world2 =
            (Done (digestOf [4; 9], None), (RootHash 1%nat world2).2)) as H
    by (vm_compute; reflexivity).
  split; [exact H|]. split; [vm_compute; discriminate|].
  exact (proj1 (proj2 (RootHash_stable 1%nat world2)) _ _ H).
Defined.

Lemma delNode_hides_key_witness :
  tries (world0 noFaults) !! O =
    Some (mkTrie (Some O) None (Some O) {[ [1; 3] := 1%nat ]}) /\
  getDBKey O (nodes (world0 noFaults)) = Some [] /\
  exists w1,
    delNode O O (world0 noFaults) = (Done tt, w1) /\
    getNode O O w1 = (Done (None, None), w1) /\
    forall x, x <> O -> tries w1 !! x = tries (world0 noFaults) !! x.
Proof.
  assert (tries (world0 noFaults) !! O =
            Some (mkTrie (Some O) None (Some O) {[ [1; 3] := 1%nat ]})) as Ht
    by (vm_compute; reflexivity).
  assert (getDBKey O (nodes (world0 noFaults)) = Some []) as Hk by reflexivity.
  split; [exact Ht|]. split; [exact Hk|].
  exact (delNode_hides_key O O O (world0 noFaults) _ [] Ht Hk Hk).
Defined.

Lemma addNode_unschedules_witness :
  tries (world0 noFaults) !! O =
    Some (mkTrie (Some O) None (Some O) {[ [1; 3] := 1%nat ]}) /\
  getDBKey 1%nat (nodes (world0 noFaults)) = Some [1; 3] /\
  getKey 1%nat (nodes (world0 noFaults)) = [1; 3] /\
  exists w',
    (delNode O 1%nat ;;; addNode O 1%nat) (world0 noFaults) = (Done tt, w') /\
    tries w' = <[O := mkTrie (Some O) None (Some O) (delete [1; 3] {[ [1; 3] := 1%nat ]})]>
                 (tries (world0 noFaults)).
Proof.
  assert (tries (world0 noFaults) !! O =
            Some (mkTrie (Some O) None (Some O) {[ [1; 3] := 1%nat ]})) as Ht
    by (vm_compute; reflexivity).
  assert (getDBKey 1%nat (nodes (world0 noFaults)) = Some [1; 3]) as Hk by reflexivity.
  assert (getKey 1%nat (nodes (world0 noFaults)) = [1; 3]) as Hk2 by reflexivity.
  split; [exact Ht|]. split; [exact Hk|]. split; [exact Hk2|].
  destruct (proj2 (addNode_unschedules (NO := ops) O 1%nat 1%nat (world0 noFaults) _ Ht) _ Hk Hk2)
    as (w' & Hrun & Hts & _).
  exists w'. split; [exact Hrun|exact Hts].
Defined.

Lemma Add_first_key_witness :
  tries (world1 noFaults) !! O =
    Some (mkTrie (Some O) None None {[ [1; 3] := 1%nat ]}) /\
  length [1; 2] <> O /\ Z.of_nat (length [1; 2]) <= 65535 /\
  (Add O [1; 2] [9] (world1 noFaults)).1 = Done None /\
  root <$> tries (Add O [1; 2] [9] (world1 noFaults)).2 !! O = Some (Some 2%nat).
Proof.
  assert (tries (world1 noFaults) !! O =
            Some (mkTrie (Some O) None None {[ [1; 3] := 1%nat ]})) as Ht
    by (vm_compute; reflexivity).
  assert (length [1; 2] <> O) as Hl by discriminate.
  assert (Z.of_nat (length [1; 2]) <= 65535) as Hm by (simpl; lia).
  split; [exact Ht|]. split; [exact Hl|]. split; [exact Hm|].
  rewrite (Add_first_key O [1; 2] [9] (world1 noFaults) _ Ht eq_refl Hl Hm).
  split; [reflexivity|]. simpl. rewrite lookup_insert_eq. reflexivity.
Defined.

Lemma Delete_not_found_witness :
  tries (world1 noFaults) !! O =
    Some (mkTrie (Some O) None None {[ [1; 3] := 1%nat ]}) /\
  Delete O [1] (world1 noFaults) = (Done (false, None), world1 noFaults).
Proof.
  assert (tries (world1 noFaults) !! O =
            Some (mkTrie (Some O) None None {[ [1; 3] := 1%nat ]})) as Ht
    by (vm_compute; reflexivity).
  split; [exact Ht|].
  apply (proj1 (Delete_not_found O [1] (world1 noFaults)) _ Ht eq_refl).
  - discriminate.
  - simpl. lia.
Defined.

Lemma merge_idempotent_witness :
  merge 1%nat world2 = (Done None, (merge 1%nat world2).2) /\
  tries (merge 1%nat world2).2 <> tries world2 /\
  merge 1%nat (merge 1%nat world2).2 = (Done None, (merge 1%nat world2).2).
Proof.
  assert (merge 1%nat world2 = (Done None, (merge 1%nat world2).2)) as H
    by (vm_compute; reflexivity).
  split; [exact H|]. split.
  - intros Heq. apply (f_equal (fun ts => root <$> ts !! O)) in Heq.
    vm_compute in Heq. discriminate.
  - exact (proj2 (merge_idempotent 1%nat world2) _ _ H).
Defined.

Lemma child_merge_noop_witness :
  child O (world0 noFaults) = (Done 1%nat, (child O (world0 noFaults)).2) /\
  merge 1%nat (child O (world0 noFaults)).2 =
    (Done None, (child O (world0 noFaults)).2) /\
  forall fuel,
    Commit (S fuel) 1%nat (child O (world0 noFaults)).2 =
    Commit fuel O (child O (world0 noFaults)).2.
Proof.
  assert (child O (world0 noFaults) = (Done 1%nat, (child O (world0 noFaults)).2)) as H
    by (vm_compute; reflexivity).
  split; [exact H|].
  destruct (child_merge_noop _ _ _ _ H) as (Hm & Hc & _).
  split; [exact Hm|exact Hc].
Defined.

Lemma child_cannot_load_witness :
  child O (world0 noFaults) = (Done 1%nat, (child O (world0 noFaults)).2) /\
  getDBKey O (nodes (child O (world0 noFaults)).2) = Some [] /\
  getNode 1%nat O (child O (world0 noFaults)).2 =
    (Panicked PanicNilDeref, (child O (world0 noFaults)).2).
Proof.
  assert (child O (world0 noFaults) = (Done 1%nat, (child O (world0 noFaults)).2)) as H
    by (vm_compute; reflexivity).
  assert (getDBKey O (nodes (child O (world0 noFaults)).2) = Some []) as Hk
    by (vm_compute; reflexivity).
  split; [exact H|]. split; [exact Hk|].
  exact (child_cannot_load _ _ _ _ _ _ H Hk).
Defined.

Lemma Commit_terminates_witness :
  chain (tries world2) 1%nat O 1%nat /\
  (Commit 5 1%nat world2).1 <> OutOfFuel /\
  Commit 5 1%nat world2 = Commit 2 1%nat world2.
Proof.
  assert (chain (tries world2) 1%nat O 1%nat) as Hc.
  { apply (chain_step (NO := ops) _ 1%nat
             (mkTrie (NO := ops) None (Some O) (Some 1%nat) {[ [2] := O ]}) O O O).
    - vm_compute. reflexivity.
    - reflexivity.
    - apply (chain_top (NO := ops) _ O
               (mkTrie (NO := ops) (Some O) None (Some O) {[ [1; 3] := 1%nat ]})).
      + vm_compute. reflexivity.
      + reflexivity. }
  split; [exact Hc|].
  apply (Commit_terminates _ _ _ _ Hc 5%nat). lia.
Defined.

Lemma Commit_closes_batch_on_success_only_witness :
  tries (world1 applyFails) !! O =
    Some (mkTrie (Some O) None None {[ [1; 3] := 1%nat ]}) /\
  Commit 1 O (world1 applyFails) =
    (Done (Some (ErrPebble 9)), (Commit 1 O (world1 applyFails)).2) /\
  exists l d d',
    Some O = Some l /\ dbs (world1 applyFails) !! l = Some d /\
    dbs (Commit 1 O (world1 applyFails)).2 !! l = Some d' /\
    (nextBatch d ∈ openBatches d' <-> Some (ErrPebble 9) <> None).
Proof.
  assert (tries (world1 applyFails) !! O =
            Some (mkTrie (Some O) None None {[ [1; 3] := 1%nat ]})) as Ht
    by (vm_compute; reflexivity).
  assert (Commit 1 O (world1 applyFails) =
            (Done (Some (ErrPebble 9)), (Commit 1 O (world1 applyFails)).2)) as H
    by (vm_compute; reflexivity).
  split; [exact Ht|]. split; [exact H|].
  exact (Commit_closes_batch_on_success_only _ _ _ _ _ _ Ht eq_refl H).
Defined.

Lemma Commit_store_contents_witness :
  tries (world1 noFaults) !! O =
    Some (mkTrie (Some O) None None {[ [1; 3] := 1%nat ]}) /\
  Commit 1 O (world1 noFaults) = (Done None, (Commit 1 O (world1 noFaults)).2) /\
  exists l d d',
    dbs (world1 noFaults) !! l = Some d /\
    dbs (Commit 1 O (world1 noFaults)).2 !! l = Some d' /\
    kv d' !! [1; 3] = None /\
    forall k, ({[ [1; 3] := 1%nat ]} : gmap (list Z) nat) !! k = None ->
              kv d' !! k = kv d !! k.
Proof.
  assert (tries (world1 noFaults) !! O =
            Some (mkTrie (Some O) None None {[ [1; 3] := 1%nat ]})) as Ht
    by (vm_compute; reflexivity).
  assert (Commit 1 O (world1 noFaults) =
            (Done None, (Commit 1 O (world1 noFaults)).2)) as H
    by (vm_compute; reflexivity).
  split; [exact Ht|]. split; [exact H|].
  destruct (Commit_store_contents _ _ _ _ _ Ht eq_refl H)
    as (l & d & d' & ops0 & _ & Hd & Hd' & Hops & Hgone & Hkept & _).
  exists l, d, d'. split; [exact Hd|]. split; [exact Hd'|]. split.
  - apply Hgone. exists 1%nat. vm_compute. reflexivity.
  - intros k Hk. rewrite (Hkept k Hk). simpl in Hops.
    destruct Hops as [-> _]. reflexivity.
Defined.

Lemma Commit_error_and_store_witness :
  tries (world1 applyFails) !! O =
    Some (mkTrie (Some O) None None {[ [1; 3] := 1%nat ]}) /\
  Commit 1 O (world1 applyFails) =
    (Done (Some (ErrPebble 9)), (Commit 1 O (world1 applyFails)).2) /\
  exists l d d',
    Some O = Some l /\ dbs (world1 applyFails) !! l = Some d /\
    dbs (Commit 1 O (world1 applyFails)).2 !! l = Some d' /\
    (kv d' = kv d \/
     exists c, failApply (faults d) = None /\ failClose (faults d) = Some c /\
               ErrPebble 9 = ErrPebble c).
Proof.
  assert (tries (world1 applyFails) !! O =
            Some (mkTrie (Some O) None None {[ [1; 3] := 1%nat ]})) as Ht
    by (vm_compute; reflexivity).
  assert (Commit 1 O (world1 applyFails) =
            (Done (Some (ErrPebble 9)), (Commit 1 O (world1 applyFails)).2)) as H
    by (vm_compute; reflexivity).
  split; [exact Ht|]. split; [exact H|].
  exact (Commit_error_and_store _ _ _ _ _ _ Ht eq_refl H).
Defined.

Lemma nested_Commit_clears_top_only_witness :
  tries world2 !! 1%nat = Some (mkTrie None (Some O) (Some 1%nat) {[ [2] := O ]}) /\
  Commit 2 1%nat world2 = (Done None, (Commit 2 1%nat world2).2) /\
  tries (Commit 2 1%nat world2).2 !! 1%nat =
    Some (mkTrie None (Some O) (Some 1%nat) {[ [2] := O ]}) /\
  exists top d ttop,
    top <> 1%nat /\ chain (tries world2) 1%nat top d /\
    tries world2 !! top = Some ttop /\
    tries (Commit 2 1%nat world2).2 !! top =
      Some (mkTrie (db ttop) None (Some 1%nat) ∅).
Proof.
  assert (tries world2 !! 1%nat =
            Some (mkTrie None (Some O) (Some 1%nat) {[ [2] := O ]})) as Ht
    by (vm_compute; reflexivity).
  assert (Commit 2 1%nat world2 = (Done None, (Commit 2 1%nat world2).2)) as H
    by (vm_compute; reflexivity).
  split; [exact Ht|]. split; [exact H|].
  exact (nested_Commit_clears_top_only _ _ _ _ O _ Ht eq_refl H).
Defined.

Lemma pack_shape_witness :
  Forall (fun x => 0 <= x <= 15) [0x0; 0x1; 0x2; 0x3; 0x4] /\
  exists bs,
    pack [0x0; 0x1; 0x2; 0x3; 0x4] = Some (bs, true) /\
    length bs = 3%nat /\
    Forall (fun b => 0 <= b <= 255) bs /\
    (true = true -> exists b, last bs = Some b /\ Z.land b 15 = 0).
Proof.
  assert (Forall (fun x => 0 <= x <= 15) [0x0; 0x1; 0x2; 0x3; 0x4]) as Hn.
  { repeat (apply List.Forall_cons; [lia|]). apply List.Forall_nil. }
  split; [exact Hn|]. exact (pack_shape _ Hn).
Defined.

Lemma unpack_pack_roundtrip_witness :
  Forall (fun b => 0 <= b <= 255) [0x01; 0x23; 0x40] /\
  exists n,
    unpack [0x01; 0x23; 0x40] true = Some n /\
    pack n = Some ([0x01; 0x23; 0x40], true).
Proof.
  assert (Forall (fun b => 0 <= b <= 255) [0x01; 0x23; 0x40]) as Hb.
  { repeat (apply List.Forall_cons; [lia|]). apply List.Forall_nil. }
  split; [exact Hb|].
  apply (unpack_pack_roundtrip _ true Hb).
  intros _. exists 0x40. split; reflexivity.
Defined.

Lemma backingNode_get_after_witness :
  Backing.sampleDeserializeNode [5] [1; 2] [] = (Some O, [None]) /\
  Backing.backingNode_get Backing.sampleSetHash
    (B := Backing.memoryBackstore_backing Backing.sampleDeserializeNode)
    (Backing.makeBackingNode sevens [1; 2])
    (Backing.memoryBackstore_set Backing.makeMemoryBackstore [1; 2] [5]).1 [] =
    (Done O, [Some sevens]).
Proof.
  assert (Backing.sampleDeserializeNode [5] [1; 2] [] = (Some O, [None])) as Hd
    by reflexivity.
  split; [exact Hd|].
  exact (proj1 (backingNode_get_after Backing.sampleDeserializeNode Backing.sampleSetHash
                  (Backing.makeBackingNode sevens [1; 2]) Backing.makeMemoryBackstore
                  [5] []) _ _ Hd).
Defined.

(** ** Failed descents on the sample implementations *)

Section LateRuns.
#[local] Existing Instance SampleLate.ops.


End LateRuns.

